(** * Touching-shape clustering (Geometry.py)

    A shallow embedding of [are_shapes_touching] and
    [group_touching_shapes] from [Geometry.py], and the properties of the
    clustering that the specification states.

    The geometric kernel ([BRepExtrema_DistShapeShape]) is a parameter of
    the development: an oracle that, for two shapes, either reports that
    the computation is not done or gives the minimal distance as an IEEE
    754 double.  Shapes are opaque.

    Python bounds the depth of the interpreter's stack
    ([sys.getrecursionlimit()], 1000 by default): a call for which the
    stack has no room raises [RecursionError]. [dfs] is recursive, one
    frame for each shape it discovers, and nothing in the code catches
    the exception. How deep the stack is when [group_touching_shapes] is
    called is not in the code, so the room that is left is the other
    parameter of the development: [limit] is the number of nested calls
    of [dfs] whose body can still call [are_shapes_touching], which needs
    a frame of its own and those of the calls it makes. A call of [dfs]
    needs one frame, no more than a call of [are_shapes_touching]; so
    the body of [dfs] that has called [are_shapes_touching] has room to
    call [dfs], and the body of [group_touching_shapes] is taken to have
    room for its calls of [dfs]. Hence the nested calls of [dfs] up to
    depth [limit] run as they are written; a call of [dfs] at depth
    [limit + 1] runs too, but the first call of [are_shapes_touching]
    that it has to make raises [RecursionError], before the oracle is
    asked. With the default recursion limit, [limit] is below 1000. *)

From Stdlib Require Import ZArith Floats.SpecFloat.
From stdpp Require Import gmap list strings relations.

Set Warnings "-clear-no-such-hyp".

(** ** Python values used by the code *)

(** The exceptions that the code meets, both of Python's built-in
    classes: [RuntimeError(msg)], which the code raises itself, and the
    [RecursionError] that the interpreter raises when a call finds no
    room on its stack (the code does not determine its message, which
    is left out). *)
Inductive exception :=
| RuntimeError (msg : string)
| RecursionError.

(** The name of the class of an exception. *)
Definition exc_class (e : exception) : string :=
  match e with
  | RuntimeError _ => "RuntimeError"
  | RecursionError => "RecursionError"
  end.

(** What a call gives back: a value, or a raised exception. *)
Inductive result (A : Type) : Type :=
| Return (a : A)
| Raise (e : exception).
Arguments Return {A} a.
Arguments Raise {A} e.

(** The float literal [0.0], and [x == y] on floats. *)
Definition float_zero : spec_float := S754_zero false.
Definition float_eq (x y : spec_float) : bool := SFeqb x y.
(** [0.0 < x]: a strictly positive float (NaN is not). *)
Definition float_pos (x : spec_float) : bool := SFltb float_zero x.

(** [enumerate(l, start)]. *)
Fixpoint enumerate {A : Type} (start : nat) (l : list A) : list (nat * A) :=
  match l with
  | [] => []
  | x :: l' => (start, x) :: enumerate (S start) l'
  end.

Section Oracle.

(** [TopoDS_Shape] handles. *)
Variable Shape : Type.

(** The kernel's [BRepExtrema_DistShapeShape(shape1, shape2)], after
    [Perform()]: [None] when [IsDone()] is false, otherwise [Value()]. *)
Variable distance : Shape → Shape → option spec_float.

(** [are_shapes_touching(shape1, shape2)]. *)
Definition are_shapes_touching (shape1 shape2 : Shape) : result bool :=
  match distance shape1 shape2 with
  | None => Raise (RuntimeError "Distance computation failed.")
  | Some min_distance => Return (float_eq min_distance float_zero)
  end.

(** One call of the oracle, as the ghost log records it: the input
    positions of the two arguments and the set [visited] at that
    moment. *)
Record query := Query { q_src : nat; q_dst : nat; q_visited : gset nat }.

(** The two positions of a call. *)
Definition call (q : query) : nat * nat := (q_src q, q_dst q).

(** The variables of one invocation of [group_touching_shapes]:
    [visited], [groups] and the list [group] under construction, which
    [dfs] receives by reference. The last three fields are ghost state:
    they do not influence the run. [members] holds the input positions of
    the elements of [group], [clusters] those of [groups], and [queries]
    is the log of oracle calls. *)
Record state := State {
  visited : gset nat;
  group : list Shape;
  groups : list (list Shape);
  members : list nat;
  clusters : list (list nat);
  queries : list query }.

(** How a block of statements ends. *)
Inductive status := Done | Raised (e : exception).

Definition init : state :=
  {| visited := ∅; group := []; groups := [];
     members := []; clusters := []; queries := [] |}.

(** Ghost: the oracle is about to be called on positions [src], [i]. *)
Definition log_query (src i : nat) (st : state) : state :=
  {| visited := visited st; group := group st; groups := groups st;
     members := members st; clusters := clusters st;
     queries := queries st ++ [Query src i (visited st)] |}.

(** [visited.add(i); group.append(other_shape)]. *)
Definition visit (i : nat) (other_shape : Shape) (st : state) : state :=
  {| visited := {[i]} ∪ visited st; group := group st ++ [other_shape];
     groups := groups st;
     members := members st ++ [i]; clusters := clusters st;
     queries := queries st |}.

(** [visited.add(i); group = [shape]]. *)
Definition seed (i : nat) (shape : Shape) (st : state) : state :=
  {| visited := {[i]} ∪ visited st; group := [shape];
     groups := groups st;
     members := [i]; clusters := clusters st;
     queries := queries st |}.

(** [groups.append(group)]. *)
Definition close_group (st : state) : state :=
  {| visited := visited st; group := group st;
     groups := groups st ++ [group st];
     members := members st; clusters := clusters st ++ [members st];
     queries := queries st |}.

(** The room on the interpreter's stack when [group_touching_shapes]
    runs: the number of nested calls of [dfs] that can call a function
    themselves. *)
Variable limit : nat.

Section Run.

(** The argument of [group_touching_shapes]. *)
Variable shapes : list Shape.

(** The [for] loop of [dfs(shape, group)] over the rest [items] of
    [enumerate(shapes)]. [rec] is the recursive call when the stack has
    room for a call, and [None] when it has none: then the first call
    that the loop has to make, the call of [are_shapes_touching], raises
    [RecursionError] before the oracle is asked. [src] is ghost: the
    input position of [shape]. The oracle is only called when [i] is not
    in [visited] ([and] is short-circuit). *)
Fixpoint dfs_loop (rec : option (nat → Shape → state → state * status))
    (src : nat) (shape : Shape) (items : list (nat * Shape)) (st : state)
    : state * status :=
  match items with
  | [] => (st, Done)
  | (i, other_shape) :: rest =>
      if decide (i ∈ visited st) then dfs_loop rec src shape rest st
      else
        match rec with
        | None => (st, Raised RecursionError)
        | Some dfs =>
            let st := log_query src i st in
            match are_shapes_touching shape other_shape with
            | Return true =>
                match dfs i other_shape (visit i other_shape st) with
                | (st, Done) => dfs_loop rec src shape rest st
                | stop => stop
                end
            | Return false => dfs_loop rec src shape rest st
            | Raise e => (st, Raised e)
            end
        end
  end.

(** [dfs(shape, group)] where the stack has room for [room] more nested
    calls of [dfs] that can call a function themselves. *)
Fixpoint dfs (room : nat) (src : nat) (shape : Shape) (st : state)
    : state * status :=
  dfs_loop (match room with O => None | S room' => Some (dfs room') end)
    src shape (enumerate 0 shapes) st.

(** The [for] loop of [group_touching_shapes], where the stack has room
    for [room] nested calls of [dfs] that can call a function
    themselves. *)
Fixpoint main_loop (room : nat) (items : list (nat * Shape)) (st : state)
    : state * status :=
  match items with
  | [] => (st, Done)
  | (i, shape) :: rest =>
      if decide (i ∈ visited st) then main_loop room rest st
      else
        match dfs room i shape (seed i shape st) with
        | (st, Done) => main_loop room rest (close_group st)
        | stop => stop
        end
  end.

(** The whole body, ghost state included. *)
Definition run : state * status :=
  main_loop limit (enumerate 0 shapes) init.

(** [group_touching_shapes(shapes)]. *)
Definition group_touching_shapes : result (list (list Shape)) :=
  match run with
  | (st, Done) => Return (groups st)
  | (_, Raised e) => Raise e
  end.

(** Ghost views of the run: the returned clusters as lists of input
    positions, and the oracle calls as pairs of positions. *)
Definition cluster_positions : list (list nat) := clusters run.1.
Definition oracle_log : list query := queries run.1.
Definition oracle_calls : list (nat * nat) := call <$> oracle_log.

(** *** Vocabulary of the statements *)

(** What the oracle answers for the shapes at two positions. *)
Definition asked (i j : nat) : option (result bool) :=
  match shapes !! i, shapes !! j with
  | Some a, Some b => Some (are_shapes_touching a b)
  | _, _ => None
  end.

(** The shape at [i] touches the shape at [j], in this order of the
    arguments. *)
Definition touches_b (i j : nat) : bool :=
  match asked i j with Some (Return true) => true | _ => false end.

(** The oracle fails on the shapes at [i] and [j]. *)
Definition fails_at (i j : nat) : Prop :=
  ∃ a b, shapes !! i = Some a ∧ shapes !! j = Some b ∧ distance a b = None.

(** The second arguments of the calls that answered "touching". *)
Definition found (qs : list query) : list nat :=
  q_dst <$> filter (λ q, touches_b (q_src q) (q_dst q) = true) qs.

(** The distance from the shape at [i] to the shape at [j] is [0.0]. *)
Definition touches (i j : nat) : Prop :=
  ∃ a b d, shapes !! i = Some a ∧ shapes !! j = Some b ∧
    distance a b = Some d ∧ float_eq d float_zero = true.

(** [i] and [j] are members of [c] at distance [0.0], in one order of
    the arguments or the other. *)
Definition link (c : list nat) (i j : nat) : Prop :=
  i ∈ c ∧ j ∈ c ∧ (touches i j ∨ touches j i).

(** [i] and [j] are members of [c], and the distance from the shape at
    [i] to the shape at [j] is [0.0]. *)
Definition step (c : list nat) (i j : nat) : Prop :=
  i ∈ c ∧ j ∈ c ∧ touches i j.

(** The groups [gs] hold the shapes at the positions [cs]. *)
Definition shapes_at (cs : list (list nat)) (gs : list (list Shape)) : Prop :=
  Forall2 (Forall2 (λ i s, shapes !! i = Some s)) cs gs.

(** The oracle fails on none of the calls of the run. *)
Definition never_fails : Prop :=
  ∀ q, q ∈ oracle_log → ¬ fails_at (q_src q) (q_dst q).

(** The oracle answers for every two shapes of the input. *)
Definition oracle_total : Prop :=
  ∀ a b, a ∈ shapes → b ∈ shapes → distance a b ≠ None.

(** The oracle is symmetric on the input, as far as touching goes. *)
Definition symmetric : Prop := ∀ i j, touches i j → touches j i.

(** Every shape of the input touches the shape at the next position. *)
Definition chained : Prop :=
  ∀ i a b, shapes !! i = Some a → shapes !! S i = Some b →
    are_shapes_touching a b = Return true.

End Run.
End Oracle.

Arguments visited {Shape} _.
Arguments group {Shape} _.
Arguments groups {Shape} _.
Arguments members {Shape} _.
Arguments clusters {Shape} _.
Arguments queries {Shape} _.
Arguments init {Shape}.
Arguments log_query {Shape} _ _ _.
Arguments visit {Shape} _ _ _.
Arguments seed {Shape} _ _ _.
Arguments close_group {Shape} _.
Arguments are_shapes_touching {Shape} _ _ _.
Arguments dfs_loop {Shape} _ _ _ _ _ _.
Arguments dfs {Shape} _ _ _ _ _ _.
Arguments main_loop {Shape} _ _ _ _ _.
Arguments run {Shape} _ _ _.
Arguments group_touching_shapes {Shape} _ _ _.
Arguments cluster_positions {Shape} _ _ _.
Arguments oracle_log {Shape} _ _ _.
Arguments oracle_calls {Shape} _ _ _.
Arguments asked {Shape} _ _ _ _.
Arguments touches_b {Shape} _ _ _ _.
Arguments fails_at {Shape} _ _ _ _.
Arguments found {Shape} _ _ _.
Arguments touches {Shape} _ _ _ _.
Arguments link {Shape} _ _ _ _ _.
Arguments step {Shape} _ _ _ _ _.
Arguments shapes_at {Shape} _ _ _.
Arguments never_fails {Shape} _ _ _.
Arguments oracle_total {Shape} _ _.
Arguments symmetric {Shape} _ _.
Arguments chained {Shape} _ _.

(** *** Vocabulary of the further properties *)

(** No shape touches a shape at a later position. *)
Definition apart {Shape} (distance : Shape → Shape → option spec_float)
    (shapes : list Shape) : Prop :=
  ∀ i j a b, i < j → shapes !! i = Some a → shapes !! j = Some b →
    are_shapes_touching distance a b = Return false.

(** The pairs of positions [(k, j)] with [m ≤ k < j < m + d], in the
    order in which the two loops meet them. *)
Fixpoint forward_pairs (m d : nat) : list (nat * nat) :=
  match d with
  | 0 => []
  | S d' => ((λ j, (m, j)) <$> seq (S m) d') ++ forward_pairs (S m) d'
  end.

(** The sets [visited] recorded with the oracle calls grow along the
    log. *)
Definition snapshots_grow (qs : list query) : Prop :=
  ∀ a b qa qb, a ≤ b → qs !! a = Some qa → qs !! b = Some qb →
    q_visited qa ⊆ q_visited qb.

(** Invariant of the log: the recorded sets grow, and stay within
    [visited]. *)
Record linv {Shape} (st : state Shape) : Prop := LInv {
  li_grow : snapshots_grow (queries st);
  li_within : ∀ q, q ∈ queries st → q_visited q ⊆ visited st }.

(** ** Oracles for concrete runs *)

(** Shapes named by numbers, and oracles given by tables. [five] is the
    double [5.0]. *)
Definition five : spec_float := S754_finite false 5629499534213120 (-50).

(** Scenario 3: A - B and B - C touch, A and C are 5 apart. *)
Definition chain_oracle (a b : nat) : option spec_float :=
  match a, b with
  | 0, 1 | 1, 2 => Some float_zero
  | _, _ => Some five
  end.

(** Scenario 4: every pair is 5 apart. *)
Definition apart_oracle (a b : nat) : option spec_float := Some five.

(** Scenario 5: the kernel never converges. *)
Definition failing_oracle (a b : nat) : option spec_float := None.

(** Shape 2 touches shapes 0 and 1, which are 5 apart: shape 2 is found
    before shape 1. *)
Definition detour_oracle (a b : nat) : option spec_float :=
  match a, b with
  | 0, 2 | 2, 0 | 1, 2 | 2, 1 => Some float_zero
  | _, _ => Some five
  end.

(** Every two shapes touch. *)
Definition contact_oracle (a b : nat) : option spec_float := Some float_zero.

(** An oracle that is not symmetric: 0.0 from shape 1 to shape 0, but 5.0
    from shape 0 to shape 1. *)
Definition one_way_oracle (a b : nat) : option spec_float :=
  match a, b with
  | 1, 0 => Some float_zero
  | _, _ => Some five
  end.

(** ** Basic facts *)

Lemma elem_of_enumerate {A} (l : list A) k i x :
  (i, x) ∈ enumerate k l ↔ k ≤ i ∧ l !! (i - k) = Some x.
Proof.
  revert k. induction l as [|y l IH]; intros k; simpl.
  - rewrite elem_of_nil. naive_solver.
  - rewrite elem_of_cons, IH. split.
    + intros [Heq|[Hk Hl]]; [injection Heq as -> ->|].
      * split; [lia|]. by replace (k - k) with 0 by lia.
      * split; [lia|]. by replace (i - k) with (S (i - S k)) by lia.
    + intros [Hk Hl]. destruct (decide (i = k)) as [->|Hne].
      * left. replace (k - k) with 0 in Hl by lia. simpl in Hl. congruence.
      * right. split; [lia|].
        by replace (i - k) with (S (i - S k)) in Hl by lia.
Qed.

Lemma fst_enumerate {A} (l : list A) k : (enumerate k l).*1 = seq k (length l).
Proof. revert k. induction l as [|y l IH]; intros k; simpl; [done|]. by rewrite IH. Qed.

Lemma snd_enumerate {A} (l : list A) k : (enumerate k l).*2 = l.
Proof. revert k. induction l as [|y l IH]; intros k; simpl; [done|]. by rewrite IH. Qed.

Lemma enumerate_app {A} (l1 l2 : list A) k :
  enumerate k (l1 ++ l2) = enumerate k l1 ++ enumerate (k + length l1) l2.
Proof.
  revert k. induction l1 as [|y l1 IH]; intros k; simpl.
  - by rewrite Nat.add_0_r.
  - rewrite IH. do 3 f_equal. lia.
Qed.

Lemma length_enumerate {A} (l : list A) k : length (enumerate k l) = length l.
Proof. revert k. induction l as [|y l IH]; intros k; simpl; [done|]. by rewrite IH. Qed.

(** ** List lemmas *)

Lemma elem_of_concat {A} (x : A) (ls : list (list A)) :
  x ∈ concat ls ↔ ∃ l, l ∈ ls ∧ x ∈ l.
Proof.
  induction ls as [|l ls IH]; simpl.
  - split; [by intros ?%elem_of_nil|by intros (? & ?%elem_of_nil & _)].
  - rewrite elem_of_app, IH. split.
    + intros [H|(l' & H1 & H2)]; [exists l; split; [by left|done]|].
      exists l'. split; [by right|done].
    + intros (l' & [->|H1]%elem_of_cons & H2); [by left|right; by exists l'].
Qed.

Lemma NoDup_concat_lookup {A} (ls : list (list A)) m1 m2 l1 l2 x :
  NoDup (concat ls) → ls !! m1 = Some l1 → ls !! m2 = Some l2 →
  x ∈ l1 → x ∈ l2 → m1 = m2.
Proof.
  revert m1 m2. induction ls as [|l ls IH]; intros m1 m2; [done|].
  simpl. intros (Hl & Hd & Hls)%NoDup_app H1 H2 Hx1 Hx2.
  destruct m1 as [|m1], m2 as [|m2]; simpl in *.
  - done.
  - injection H1 as ->. destruct (Hd x Hx1).
    apply elem_of_concat. exists l2. split; [by eapply list_elem_of_lookup_2|done].
  - injection H2 as ->. destruct (Hd x Hx2).
    apply elem_of_concat. exists l1. split; [by eapply list_elem_of_lookup_2|done].
  - f_equal. by apply IH.
Qed.

Lemma elem_of_concat_take {A} (ls : list (list A)) m x :
  x ∈ concat (take m ls) ↔ ∃ m' l, m' < m ∧ ls !! m' = Some l ∧ x ∈ l.
Proof.
  rewrite elem_of_concat. split.
  - intros (l & (m' & Hl & Hm)%elem_of_take & Hx). by exists m', l.
  - intros (m' & l & Hm & Hl & Hx). exists l. split; [|done].
    apply elem_of_take. by exists m'.
Qed.

(** At most [n * (n - 1)] ordered pairs of distinct numbers below [n]. *)
Lemma pairs_bound (n : nat) (l : list (nat * nat)) :
  NoDup l → (∀ i j, (i, j) ∈ l → i < n ∧ j < n ∧ i ≠ j) →
  length l ≤ n * (n - 1).
Proof.
  intros Hnd Hl.
  pose (enc := λ p : nat * nat,
    p.1 * (n - 1) + (if decide (p.2 < p.1) then p.2 else p.2 - 1)).
  rewrite <-(length_fmap enc).
  trans (length (seq 0 (n * (n - 1)))); [|by rewrite length_seq].
  apply submseteq_length, NoDup_submseteq.
  - apply NoDup_fmap_2_strong; [|done].
    intros [i1 j1] [i2 j2] H1%Hl H2%Hl He. unfold enc in He. simpl in He.
    assert (i1 = i2) as ->.
    { destruct (decide (j1 < i1)), (decide (j2 < i2)); nia. }
    f_equal. destruct (decide (j1 < i2)), (decide (j2 < i2)); lia.
  - intros x ([i j] & -> & H%Hl)%list_elem_of_fmap. apply elem_of_seq.
    unfold enc. simpl. destruct (decide (j < i)); nia.
Qed.

Section Facts.

Context {Shape : Type} (distance : Shape → Shape → option spec_float).

Local Abbreviation touching := (are_shapes_touching distance).
Local Abbreviation state := (state Shape).

Section Single.

Variable limit : nat.

Variable shapes : list Shape.

Local Abbreviation items0 := (enumerate 0 shapes).
Local Abbreviation dfs := (dfs distance shapes).
Local Abbreviation dfs_loop := (dfs_loop distance).
Local Abbreviation main_loop := (main_loop distance shapes).
Local Abbreviation asked := (asked distance shapes).
Local Abbreviation touches_b := (touches_b distance shapes).
Local Abbreviation fails_at := (fails_at distance shapes).
Local Abbreviation found := (found distance shapes).
Local Abbreviation never_fails := (never_fails distance limit shapes).
Local Abbreviation oracle_total := (oracle_total distance shapes).
Local Abbreviation touches := (touches distance shapes).
Local Abbreviation link := (link distance shapes).
Local Abbreviation step := (step distance shapes).
Local Abbreviation shapes_at := (shapes_at shapes).

(** Without room on the stack, the loop of [dfs] ends well when nothing
    is left to visit among [items], and raises [RecursionError]
    otherwise; it changes nothing. *)
Lemma dfs_loop_None src shape items st :
  dfs_loop None src shape items st
  = (st, if decide (Forall (λ it, it.1 ∈ visited st) items) then Done
         else Raised RecursionError).
Proof.
  induction items as [|[i o] rest IH]; cbn [dfs_loop].
  - destruct (decide (Forall (λ it, it.1 ∈ visited st) [])) as [_|H]; [done|].
    destruct H. constructor.
  - destruct (decide (i ∈ visited st)) as [Hi|Hi].
    + rewrite IH.
      destruct (decide (Forall (λ it, it.1 ∈ visited st) rest)) as [Hr|Hr];
        destruct (decide (Forall (λ it, it.1 ∈ visited st) ((i, o) :: rest)))
          as [Hc|Hc]; try done.
      * destruct Hc. by constructor.
      * by apply Forall_cons in Hc as [_ ?].
    + destruct (decide (Forall (λ it, it.1 ∈ visited st) ((i, o) :: rest)))
        as [Hc|Hc]; [|done].
      by apply Forall_cons in Hc as [? _].
Qed.

Lemma dfs_0 src shape st :
  dfs 0 src shape st = dfs_loop None src shape items0 st.
Proof. done. Qed.

(** Induction along a run of [dfs]: one case per path through the body
    of the loop. *)
Lemma dfs_run_ind
    (P : nat → nat → Shape → state → state * status → Prop)
    (Q : nat → nat → Shape → list (nat * Shape) → state → state * status → Prop) :
  (∀ src shape st,
      Forall (λ it, it.1 ∈ visited st) items0 → P 0 src shape st (st, Done)) →
  (∀ src shape st,
      ¬ Forall (λ it, it.1 ∈ visited st) items0 →
      P 0 src shape st (st, Raised RecursionError)) →
  (∀ f src shape st r, Q f src shape items0 st r → P (S f) src shape st r) →
  (∀ f src shape st, Q f src shape [] st (st, Done)) →
  (∀ f src shape i o rest st r,
      i ∈ visited st → Q f src shape rest st r →
      Q f src shape ((i, o) :: rest) st r) →
  (∀ f src shape i o rest st e,
      i ∉ visited st → touching shape o = Raise e →
      Q f src shape ((i, o) :: rest) st (log_query src i st, Raised e)) →
  (∀ f src shape i o rest st r,
      i ∉ visited st → touching shape o = Return false →
      Q f src shape rest (log_query src i st) r →
      Q f src shape ((i, o) :: rest) st r) →
  (∀ f src shape i o rest st st1 r,
      i ∉ visited st → touching shape o = Return true →
      dfs f i o (visit i o (log_query src i st)) = (st1, Done) →
      P f i o (visit i o (log_query src i st)) (st1, Done) →
      Q f src shape rest st1 r →
      Q f src shape ((i, o) :: rest) st r) →
  (∀ f src shape i o rest st st1 s,
      i ∉ visited st → touching shape o = Return true →
      dfs f i o (visit i o (log_query src i st)) = (st1, s) →
      s ≠ Done →
      P f i o (visit i o (log_query src i st)) (st1, s) →
      Q f src shape ((i, o) :: rest) st (st1, s)) →
  ∀ f,
    (∀ src shape st, P f src shape st (dfs f src shape st)) ∧
    (∀ src shape items st,
        Q f src shape items st (dfs_loop (Some (dfs f)) src shape items st)).
Proof.
  intros H0 H0' HS Hnil Hskip Hraise Hfar Hnear Hstop.
  assert (Hloop : ∀ f, (∀ src shape st, P f src shape st (dfs f src shape st)) →
    ∀ src shape items st,
      Q f src shape items st (dfs_loop (Some (dfs f)) src shape items st)).
  { intros f HP src shape items.
    induction items as [|[i o] rest IH]; intros st; simpl; [apply Hnil|].
    destruct (decide (i ∈ visited st)) as [Hin|Hin]; [by apply Hskip|].
    destruct (touching shape o) as [[]|e] eqn:Ht.
    - destruct (dfs f i o _) as [st1 s] eqn:Hd.
      pose proof (HP i o (visit i o (log_query src i st))) as HP'.
      rewrite Hd in HP'.
      destruct s; [by eapply Hnear|by eapply Hstop].
    - by apply Hfar.
    - by apply Hraise. }
  induction f as [|f [IHP IHQ]].
  - assert (HP0 : ∀ src shape st, P 0 src shape st (dfs 0 src shape st)).
    { intros. rewrite dfs_0, dfs_loop_None. case_decide; [by apply H0|by apply H0']. }
    split; [done|by apply Hloop].
  - assert (HPS : ∀ src shape st, P (S f) src shape st (dfs (S f) src shape st))
      by (intros; simpl; apply HS, IHQ).
    split; [done|by apply Hloop].
Qed.

(** [grows st st' ds vs qs]: [st'] is [st] after the positions [ds] have
    been visited, their shapes [vs] appended to [group], and the oracle
    calls [qs] made; [ds] are fresh positions of [shapes], without
    repetition. *)
Record grows (st st' : state) (ds : list nat) (vs : list Shape)
    (qs : list query) : Prop := Grows {
  grows_visited : visited st' = list_to_set ds ∪ visited st;
  grows_members : members st' = members st ++ ds;
  grows_group : group st' = group st ++ vs;
  grows_queries : queries st' = queries st ++ qs;
  grows_groups : groups st' = groups st;
  grows_clusters : clusters st' = clusters st;
  grows_nodup : NoDup ds;
  grows_fresh : ∀ i, i ∈ ds → i ∉ visited st;
  grows_shapes : Forall2 (λ i s, shapes !! i = Some s) ds vs }.

Lemma grows_refl st : grows st st [] [] [].
Proof.
  split; rewrite ?app_nil_r; try done;
    first [apply NoDup_nil_2|apply Forall2_nil_2|set_solver].
Qed.

Lemma grows_trans st st1 st2 ds1 vs1 qs1 ds2 vs2 qs2 :
  grows st st1 ds1 vs1 qs1 → grows st1 st2 ds2 vs2 qs2 →
  grows st st2 (ds1 ++ ds2) (vs1 ++ vs2) (qs1 ++ qs2).
Proof.
  intros [Hv1 Hm1 Hg1 Hq1 Hgs1 Hc1 Hn1 Hf1 Hs1] [Hv2 Hm2 Hg2 Hq2 Hgs2 Hc2 Hn2 Hf2 Hs2].
  split; rewrite ?app_assoc; try congruence.
  - rewrite Hv2, Hv1, list_to_set_app_L. clear. set_solver.
  - apply NoDup_app. split_and!; [done| |done].
    intros x Hx1 Hx2%Hf2. apply Hx2. rewrite Hv1. clear -Hx1. set_solver.
  - intros i [Hi|Hi%Hf2]%elem_of_app; [by apply Hf1|].
    rewrite Hv1 in Hi. clear -Hi. set_solver.
  - by apply Forall2_app.
Qed.

Lemma grows_log_query st src i :
  grows st (log_query src i st) [] [] [Query src i (visited st)].
Proof.
  split; simpl; rewrite ?app_nil_r; try done;
    first [apply NoDup_nil_2|apply Forall2_nil_2|set_solver].
Qed.

Lemma grows_visit st i o :
  i ∉ visited st → shapes !! i = Some o → grows st (visit i o st) [i] [o] [].
Proof.
  intros Hi Ho. split; simpl; rewrite ?app_nil_r; try done.
  - set_solver.
  - apply NoDup_singleton.
  - set_solver.
  - by repeat constructor.
Qed.

Lemma grows_far st st' src i ds vs qs :
  grows (log_query src i st) st' ds vs qs →
  grows st st' ds vs (Query src i (visited st) :: qs).
Proof. apply (grows_trans _ _ _ [] [] [_]), grows_log_query. Qed.

Lemma grows_near st st' src i o ds vs qs :
  i ∉ visited st → shapes !! i = Some o →
  grows (visit i o (log_query src i st)) st' ds vs qs →
  grows st st' (i :: ds) (o :: vs) (Query src i (visited st) :: qs).
Proof.
  intros Hi Ho H. apply grows_far.
  by apply (grows_trans _ _ _ [i] [o] [] _ _ _
              (grows_visit (log_query src i st) i o Hi Ho)).
Qed.

Lemma grows_mono st st' ds vs qs : grows st st' ds vs qs → visited st ⊆ visited st'.
Proof. intros []. set_solver. Qed.

(** The items of the loop are positions of [shapes] with their shapes. *)
Definition items_ok (items : list (nat * Shape)) : Prop :=
  ∀ i o, (i, o) ∈ items → shapes !! i = Some o.

Lemma items_ok_enumerate : items_ok items0.
Proof.
  intros i o [_ H]%elem_of_enumerate. by rewrite Nat.sub_0_r in H.
Qed.

Lemma items_ok_cons i o items :
  items_ok ((i, o) :: items) → shapes !! i = Some o ∧ items_ok items.
Proof.
  intros H. split; [apply H; left|]. intros j p Hj. apply H. by right.
Qed.

(** Whatever the outcome, [dfs] only extends the state. *)
Lemma dfs_grows f :
  (∀ src shape st st' s, dfs f src shape st = (st', s) →
     ∃ ds vs qs, grows st st' ds vs qs) ∧
  (∀ src shape items st st' s, items_ok items →
     dfs_loop (Some (dfs f)) src shape items st = (st', s) →
     ∃ ds vs qs, grows st st' ds vs qs).
Proof.
  pose (P := λ (_ _ : nat) (_ : Shape) (st : state) (r : state * status),
    ∃ ds vs qs, grows st r.1 ds vs qs).
  pose (Q := λ (_ _ : nat) (_ : Shape) (items : list (nat * Shape))
             (st : state) (r : state * status),
    items_ok items → ∃ ds vs qs, grows st r.1 ds vs qs).
  destruct (dfs_run_ind P Q) with (f := f) as [HP HQ]; unfold P, Q in *; simpl.
  - intros. eauto using grows_refl.
  - intros. eauto using grows_refl.
  - intros f' src shape st r H. apply H, items_ok_enumerate.
  - intros. eauto using grows_refl.
  - intros f' src shape i o rest st r Hin IH [_ Hok]%items_ok_cons. by apply IH.
  - intros. simpl. eauto using grows_log_query.
  - intros f' src shape i o rest st r Hin Ht IH [_ Hok]%items_ok_cons.
    destruct (IH Hok) as (ds & vs & qs & Hg).
    eauto using grows_trans, grows_log_query.
  - intros f' src shape i o rest st st1 r Hin Ht Hd (ds1 & vs1 & qs1 & H1) IH
      [Ho Hok]%items_ok_cons.
    destruct (IH Hok) as (ds2 & vs2 & qs2 & H2). simpl in H1.
    pose proof (grows_log_query st src i) as Ha.
    pose proof (grows_visit (log_query src i st) i o Hin Ho) as Hb.
    do 3 eexists. eapply grows_trans; [|exact H2].
    eapply grows_trans; [|exact H1]. eapply grows_trans; [exact Ha|exact Hb].
  - intros f' src shape i o rest st st1 s Hin Ht Hd Hs (ds1 & vs1 & qs1 & H1)
      [Ho Hok]%items_ok_cons. simpl in *.
    pose proof (grows_log_query st src i) as Ha.
    pose proof (grows_visit (log_query src i st) i o Hin Ho) as Hb.
    do 3 eexists. eapply grows_trans; [|exact H1].
    eapply grows_trans; [exact Ha|exact Hb].
  - split.
    + intros src shape st st' s Hd. specialize (HP src shape st).
      by rewrite Hd in HP.
    + intros src shape items st st' s Hok Hd. specialize (HQ src shape items st).
      rewrite Hd in HQ. by apply HQ.
Qed.

(** *** The depth of the recursion *)

(** The positions of [shapes] that are not yet visited. *)
Definition unvisited (st : state) : gset nat :=
  list_to_set (seq 0 (length shapes)) ∖ visited st.

Lemma items_ok_lt items i o : items_ok items → (i, o) ∈ items → i < length shapes.
Proof. intros Hok Hi. eapply lookup_lt_Some, Hok, Hi. Qed.

Lemma unvisited_visit st i :
  i < length shapes → i ∉ visited st →
  size (list_to_set (seq 0 (length shapes)) ∖ ({[i]} ∪ visited st) : gset nat)
    < size (unvisited st).
Proof.
  intros Hi Hin. apply subset_size. unfold unvisited.
  assert (i ∈ (list_to_set (seq 0 (length shapes)) : gset nat)).
  { apply elem_of_list_to_set, elem_of_seq. lia. }
  set_solver.
Qed.

Lemma unvisited_mono st st' :
  visited st ⊆ visited st' → size (unvisited st') ≤ size (unvisited st).
Proof. intros H. apply subseteq_size. unfold unvisited. set_solver. Qed.

Lemma unvisited_left st :
  ¬ Forall (λ it : nat * Shape, it.1 ∈ visited st) items0 → 0 < size (unvisited st).
Proof.
  intros (it & Hit & Hv)%not_Forall_Exists%Exists_exists; [|apply _].
  destruct it as [i o]. simpl in Hv.
  assert (i ∈ unvisited st) as Hi.
  2:{ destruct (size (unvisited st)) eqn:E; [|lia].
      apply size_empty_inv in E. by apply E in Hi. }
  unfold unvisited. apply elem_of_difference. split; [|done].
  apply elem_of_list_to_set, elem_of_seq. split; [lia|]. simpl.
  by eapply items_ok_lt; [apply items_ok_enumerate|].
Qed.

Lemma touching_Raise a b e :
  touching a b = Raise e →
  e = RuntimeError "Distance computation failed." ∧ distance a b = None.
Proof.
  unfold are_shapes_touching. destruct (distance a b); [done|]. by intros [= <-].
Qed.

(** With room for as many nested calls as there are unvisited positions,
    [dfs] does not raise [RecursionError]. *)
Lemma dfs_room f :
  (∀ src shape st, size (unvisited st) ≤ f →
     (dfs f src shape st).2 ≠ Raised RecursionError) ∧
  (∀ src shape items st, items_ok items → size (unvisited st) ≤ S f →
     (dfs_loop (Some (dfs f)) src shape items st).2 ≠ Raised RecursionError).
Proof.
  pose (P := λ (f src : nat) (_ : Shape) (st : state) (r : state * status),
    size (unvisited st) ≤ f → r.2 ≠ Raised RecursionError).
  pose (Q := λ (f src : nat) (_ : Shape) (items : list (nat * Shape))
             (st : state) (r : state * status),
    items_ok items → size (unvisited st) ≤ S f → r.2 ≠ Raised RecursionError).
  apply (dfs_run_ind P Q); unfold P, Q; simpl; clear P Q f.
  - done.
  - intros src shape st H%unvisited_left. lia.
  - intros f src shape st r H Hf. apply H; [apply items_ok_enumerate|lia].
  - done.
  - intros f src shape i o rest st r Hin IH [_ Hok]%items_ok_cons. by apply IH.
  - by intros f src shape i o rest st e Hin [-> _]%touching_Raise.
  - intros f src shape i o rest st r Hin Ht IH [_ Hok]%items_ok_cons. by apply IH.
  - intros f src shape i o rest st st1 r Hin Ht Hd _ IH [Ho Hok]%items_ok_cons Hf.
    apply IH; [done|]. apply (dfs_grows f) in Hd as (ds & vs & qs & Hg).
    apply grows_mono in Hg. etrans; [by apply unvisited_mono|].
    etrans; [|exact Hf]. apply unvisited_mono. simpl. set_solver.
  - intros f src shape i o rest st st1 s Hin Ht Hd Hs IH [Ho Hok]%items_ok_cons Hf.
    apply IH. apply Nat.lt_succ_r. eapply Nat.lt_le_trans; [|exact Hf].
    apply (unvisited_visit st i); [by eapply lookup_lt_Some|done].
Qed.

(** *** The oracle calls of a run *)

Lemma found_app qs1 qs2 : found (qs1 ++ qs2) = found qs1 ++ found qs2.
Proof. unfold found. by rewrite filter_app, fmap_app. Qed.

Lemma asked_Some i j a b :
  shapes !! i = Some a → shapes !! j = Some b → asked i j = Some (touching a b).
Proof. unfold asked. by intros -> ->. Qed.

Lemma found_cons_true q qs :
  touches_b (q_src q) (q_dst q) = true → found (q :: qs) = q_dst q :: found qs.
Proof. intros H. unfold found. by rewrite filter_cons_True. Qed.

Lemma found_cons_false q qs :
  touches_b (q_src q) (q_dst q) ≠ true → found (q :: qs) = found qs.
Proof. intros H. unfold found. by rewrite filter_cons_False. Qed.

(** The run did not end on a failure of the oracle. *)
Definition answered (s : status) : Prop := ∀ msg, s ≠ Raised (RuntimeError msg).

Lemma answered_Done : answered Done.
Proof. done. Qed.

Lemma answered_overflow : answered (Raised RecursionError).
Proof. done. Qed.

(** What holds of the calls [qs] made, and the positions [ds] visited, by
    the loop of [dfs] for the shape at [src] over [items], started in
    [st] and ended with status [s]. *)
Record qfacts (src : nat) (items : list (nat * Shape)) (st : state)
    (s : status) (ds : list nat) (qs : list query) : Prop := QFacts {
  qf_src : ∀ q, q ∈ qs → q_src q ∈ q_visited q;
  qf_dst : ∀ q, q ∈ qs → q_dst q ∉ q_visited q;
  qf_lo : ∀ q, q ∈ qs → visited st ⊆ q_visited q;
  qf_from : ∀ q, q ∈ qs →
    (q_src q = src ∧ q_dst q ∈ items.*1) ∨ q_src q ∈ ds;
  qf_nodup : NoDup (call <$> qs);
  qf_found : ds = found qs;
  qf_done : answered s →
    ∀ q, q ∈ qs → ∃ t, asked (q_src q) (q_dst q) = Some (Return t);
  qf_raised : ∀ msg, s = Raised (RuntimeError msg) →
    msg = "Distance computation failed." ∧
    ∃ q, last qs = Some q ∧ fails_at (q_src q) (q_dst q);
  qf_range : ∀ q, q ∈ qs → q_dst q < length shapes }.

Lemma qfacts_nil src items st s :
  answered s → qfacts src items st s [] [].
Proof.
  intros Hs. split; try done; try (by intros ? ?%elem_of_nil).
  - constructor.
  - by intros _ ? ?%elem_of_nil.
  - intros msg He. by destruct (Hs msg).
Qed.


Lemma qfacts_skip src i o rest st s ds qs :
  qfacts src rest st s ds qs → qfacts src ((i, o) :: rest) st s ds qs.
Proof.
  intros []. split; try done.
  intros q [[-> H]|H]%qf_from0; [left|by right]. split; [done|]. simpl. by right.
Qed.

Lemma qfacts_raise src shape i o rest st e :
  src ∈ visited st → i ∉ visited st →
  shapes !! src = Some shape → shapes !! i = Some o →
  touching shape o = Raise e →
  qfacts src ((i, o) :: rest) st (Raised e) [] [Query src i (visited st)].
Proof.
  intros Hsrc Hi Hs Ho [-> Ht]%touching_Raise.
  split; try done; try (by intros q ->%list_elem_of_singleton).
  - intros q ->%list_elem_of_singleton. left. split; [done|]. simpl. by left.
  - apply NoDup_singleton.
  - unfold found. rewrite filter_cons_False; [done|]. simpl. unfold touches_b.
    rewrite (asked_Some _ _ _ _ Hs Ho). unfold are_shapes_touching. by rewrite Ht.
  - intros H. by destruct (H "Distance computation failed.").
  - intros msg [= <-]. split; [done|]. eexists. split; [done|]. simpl.
    by exists shape, o.
  - intros q ->%list_elem_of_singleton. simpl. by eapply lookup_lt_Some.
Qed.

Lemma qfacts_far src shape i o rest st s ds qs :
  src ∈ visited st → i ∉ visited st → i ∉ rest.*1 →
  shapes !! src = Some shape → shapes !! i = Some o →
  touching shape o = Return false →
  (∀ d, d ∈ ds → d ∉ visited st) →
  qfacts src rest (log_query src i st) s ds qs →
  qfacts src ((i, o) :: rest) st s ds (Query src i (visited st) :: qs).
Proof.
  intros Hsrc Hi Hrest Hs Ho Ht Hfresh [].
  split.
  - intros q [->|H]%elem_of_cons; [done|by apply qf_src0].
  - intros q [->|H]%elem_of_cons; [done|by apply qf_dst0].
  - intros q [->|H]%elem_of_cons; [done|by apply qf_lo0].
  - intros q [->|H]%elem_of_cons.
    + left. split; [done|]. simpl. by left.
    + destruct (qf_from0 q H) as [[-> H']|H']; [left|by right].
      split; [done|]. simpl. by right.
  - rewrite fmap_cons. apply NoDup_cons. split; [|done].
    intros (q & Hq & Hin)%list_elem_of_fmap. unfold call in Hq. simpl in Hq.
    injection Hq as Hq1 Hq2.
    destruct (qf_from0 q Hin) as [[_ H']|H'].
    + by rewrite <-Hq2 in H'.
    + rewrite <-Hq1 in H'. by apply Hfresh in H'.
  - rewrite found_cons_false; [done|]. simpl. unfold touches_b.
    by rewrite (asked_Some _ _ _ _ Hs Ho), Ht.
  - intros Hans q [->|H]%elem_of_cons; [|by apply qf_done0].
    simpl. rewrite (asked_Some _ _ _ _ Hs Ho), Ht. eauto.
  - intros e He. destruct (qf_raised0 e He) as (-> & q & Hl & Hq).
    split; [done|]. exists q. split; [|done].
    rewrite last_cons, Hl. done.
  - intros q [->|H]%elem_of_cons; [|by apply qf_range0].
    simpl. by eapply lookup_lt_Some.
Qed.

Lemma last_app_r {A} (l1 l2 : list A) x : last l2 = Some x → last (l1 ++ l2) = Some x.
Proof. intros [l' ->]%last_Some. by rewrite app_assoc, last_snoc. Qed.

Lemma qfacts_near src shape i o rest st st1 st2 s ds1 vs1 qs1 ds2 vs2 qs2 :
  src ∈ visited st → i ∉ visited st → i ∉ rest.*1 →
  shapes !! src = Some shape → shapes !! i = Some o →
  touching shape o = Return true →
  grows (visit i o (log_query src i st)) st1 ds1 vs1 qs1 →
  grows st1 st2 ds2 vs2 qs2 →
  qfacts i items0 (visit i o (log_query src i st)) Done ds1 qs1 →
  qfacts src rest st1 s ds2 qs2 →
  qfacts src ((i, o) :: rest) st s (i :: ds1 ++ ds2)
    (Query src i (visited st) :: qs1 ++ qs2).
Proof.
  intros Hsrc Hi Hrest Hs Ho Ht G1 G2 A B.
  pose proof (grows_visited _ _ _ _ _ G1) as Hv1. simpl in Hv1.
  pose proof (grows_fresh _ _ _ _ _ G1) as Hf1. simpl in Hf1.
  pose proof (grows_fresh _ _ _ _ _ G2) as Hf2. rewrite Hv1 in Hf2.
  assert (Hsrc1 : src ∉ i :: ds1).
  { intros [->|H%Hf1]%elem_of_cons; [done|]. clear -H Hsrc. set_solver. }
  assert (Hsrc2 : src ∉ ds2).
  { intros H%Hf2. clear -H Hsrc. set_solver. }
  assert (H12 : ∀ d, d ∈ ds2 → d ∉ i :: ds1).
  { intros d H%Hf2 Hd. apply H. clear -Hd. set_solver. }
  split.
  - intros q [->|[H|H]%elem_of_app]%elem_of_cons;
      [done|by apply (qf_src _ _ _ _ _ _ A)|by apply (qf_src _ _ _ _ _ _ B)].
  - intros q [->|[H|H]%elem_of_app]%elem_of_cons;
      [done|by apply (qf_dst _ _ _ _ _ _ A)|by apply (qf_dst _ _ _ _ _ _ B)].
  - intros q [->|[H|H]%elem_of_app]%elem_of_cons; [done| |].
    + apply (qf_lo _ _ _ _ _ _ A) in H. simpl in H. clear -H. set_solver.
    + apply (qf_lo _ _ _ _ _ _ B) in H. rewrite Hv1 in H. clear -H. set_solver.
  - intros q [->|[H|H]%elem_of_app]%elem_of_cons.
    + left. split; [done|]. simpl. by left.
    + right. destruct (qf_from _ _ _ _ _ _ A q H) as [[-> _]|H']; [by left|].
      right. apply elem_of_app. by left.
    + destruct (qf_from _ _ _ _ _ _ B q H) as [[-> H']|H'].
      * left. split; [done|]. simpl. by right.
      * right. right. apply elem_of_app. by right.
  - rewrite fmap_cons, fmap_app. apply NoDup_cons. split.
    + intros [(q & Hq & Hin)%list_elem_of_fmap|(q & Hq & Hin)%list_elem_of_fmap]%elem_of_app;
        injection Hq as Hq1 Hq2.
      * apply Hsrc1. rewrite Hq1.
        destruct (qf_from _ _ _ _ _ _ A q Hin) as [[-> _]|H']; [by left|by right].
      * destruct (qf_from _ _ _ _ _ _ B q Hin) as [[_ H']|H'].
        -- by rewrite <-Hq2 in H'.
        -- apply Hsrc2. by rewrite Hq1.
    + apply NoDup_app. split_and!;
        [apply (qf_nodup _ _ _ _ _ _ A)| |apply (qf_nodup _ _ _ _ _ _ B)].
      intros c (q1 & Hq1 & Hin1)%list_elem_of_fmap (q2 & Hq2 & Hin2)%list_elem_of_fmap.
      subst c. injection Hq2 as Hs12 Hd12.
      assert (H1 : q_src q1 ∈ i :: ds1).
      { destruct (qf_from _ _ _ _ _ _ A q1 Hin1) as [[-> _]|H']; [by left|by right]. }
      destruct (qf_from _ _ _ _ _ _ B q2 Hin2) as [[Hq _]|H'].
      * apply Hsrc1. by rewrite <-Hq, <-Hs12.
      * apply (H12 _ H'). by rewrite <-Hs12.
  - rewrite found_cons_true, found_app.
    + simpl. by rewrite (qf_found _ _ _ _ _ _ A), (qf_found _ _ _ _ _ _ B).
    + simpl. unfold touches_b. by rewrite (asked_Some _ _ _ _ Hs Ho), Ht.
  - intros Hans q [->|[H|H]%elem_of_app]%elem_of_cons.
    + simpl. rewrite (asked_Some _ _ _ _ Hs Ho), Ht. eauto.
    + by apply (qf_done _ _ _ _ _ _ A answered_Done).
    + by apply (qf_done _ _ _ _ _ _ B).
  - intros e He. destruct (qf_raised _ _ _ _ _ _ B e He) as (-> & q & Hl & Hq).
    split; [done|]. exists q. split; [|done].
    by apply (last_app_r (_ :: _)).
  - intros q [->|[H|H]%elem_of_app]%elem_of_cons.
    + simpl. by eapply lookup_lt_Some.
    + by apply (qf_range _ _ _ _ _ _ A).
    + by apply (qf_range _ _ _ _ _ _ B).
Qed.

Lemma qfacts_stop src shape i o rest st st1 s ds1 vs1 qs1 :
  src ∈ visited st → i ∉ visited st →
  shapes !! src = Some shape → shapes !! i = Some o →
  touching shape o = Return true →
  s ≠ Done →
  grows (visit i o (log_query src i st)) st1 ds1 vs1 qs1 →
  qfacts i items0 (visit i o (log_query src i st)) s ds1 qs1 →
  qfacts src ((i, o) :: rest) st s (i :: ds1) (Query src i (visited st) :: qs1).
Proof.
  intros Hsrc Hi Hs Ho Ht Hne G1 A.
  pose proof (grows_fresh _ _ _ _ _ G1) as Hf1. simpl in Hf1.
  assert (Hsrc1 : src ∉ i :: ds1).
  { intros [->|H%Hf1]%elem_of_cons; [done|]. clear -H Hsrc. set_solver. }
  split.
  - intros q [->|H]%elem_of_cons; [done|by apply (qf_src _ _ _ _ _ _ A)].
  - intros q [->|H]%elem_of_cons; [done|by apply (qf_dst _ _ _ _ _ _ A)].
  - intros q [->|H]%elem_of_cons; [done|].
    apply (qf_lo _ _ _ _ _ _ A) in H. simpl in H. clear -H. set_solver.
  - intros q [->|H]%elem_of_cons.
    + left. split; [done|]. simpl. by left.
    + right. destruct (qf_from _ _ _ _ _ _ A q H) as [[-> _]|H']; [by left|by right].
  - rewrite fmap_cons. apply NoDup_cons. split; [|apply (qf_nodup _ _ _ _ _ _ A)].
    intros (q & Hq & Hin)%list_elem_of_fmap. injection Hq as Hq1 Hq2.
    apply Hsrc1. rewrite Hq1.
    destruct (qf_from _ _ _ _ _ _ A q Hin) as [[-> _]|H']; [by left|by right].
  - rewrite found_cons_true.
    + simpl. by rewrite (qf_found _ _ _ _ _ _ A).
    + simpl. unfold touches_b. by rewrite (asked_Some _ _ _ _ Hs Ho), Ht.
  - intros Hans q [->|H]%elem_of_cons; [|by apply (qf_done _ _ _ _ _ _ A)].
    simpl. rewrite (asked_Some _ _ _ _ Hs Ho), Ht. eauto.
  - intros e He. destruct (qf_raised _ _ _ _ _ _ A e He) as (-> & q & Hl & Hq).
    split; [done|]. exists q. split; [|done].
    by apply (last_app_r [_]).
  - intros q [->|H]%elem_of_cons; [|by apply (qf_range _ _ _ _ _ _ A)].
    simpl. by eapply lookup_lt_Some.
Qed.

Lemma NoDup_fst_enumerate : NoDup items0.*1.
Proof. rewrite fst_enumerate. apply NoDup_seq. Qed.

Lemma dfs_queries f :
  (∀ src shape st st' s,
     src ∈ visited st → shapes !! src = Some shape →
     dfs f src shape st = (st', s) →
     ∃ ds vs qs, grows st st' ds vs qs ∧ qfacts src items0 st s ds qs) ∧
  (∀ src shape items st st' s,
     items_ok items → NoDup items.*1 →
     src ∈ visited st → shapes !! src = Some shape →
     dfs_loop (Some (dfs f)) src shape items st = (st', s) →
     ∃ ds vs qs, grows st st' ds vs qs ∧ qfacts src items st s ds qs).
Proof.
  pose (P := λ (f src : nat) (shape : Shape) (st : state) (r : state * status),
    src ∈ visited st → shapes !! src = Some shape →
    ∃ ds vs qs, grows st r.1 ds vs qs ∧ qfacts src items0 st r.2 ds qs).
  pose (Q := λ (f src : nat) (shape : Shape) (items : list (nat * Shape))
             (st : state) (r : state * status),
    items_ok items → NoDup items.*1 →
    src ∈ visited st → shapes !! src = Some shape →
    ∃ ds vs qs, grows st r.1 ds vs qs ∧ qfacts src items st r.2 ds qs).
  destruct (dfs_run_ind P Q) with (f := f) as [HP HQ]; unfold P, Q in *; simpl;
    clear P Q.
  - intros. exists [], [], []. split; [apply grows_refl|by apply qfacts_nil].
  - intros. exists [], [], []. split; [apply grows_refl|by apply qfacts_nil].
  - intros f' src shape st r H. apply H; [apply items_ok_enumerate|apply NoDup_fst_enumerate].
  - intros. exists [], [], []. split; [apply grows_refl|by apply qfacts_nil].
  - intros f' src shape i o rest st r Hin IH [_ Hok]%items_ok_cons Hnd Hsrc Hs.
    apply NoDup_cons in Hnd as [_ Hnd].
    destruct (IH Hok Hnd Hsrc Hs) as (ds & vs & qs & G & F).
    exists ds, vs, qs. split; [done|by apply qfacts_skip].
  - intros f' src shape i o rest st e Hin Ht [Ho Hok]%items_ok_cons Hnd Hsrc Hs.
    exists [], [], [Query src i (visited st)].
    split; [apply grows_log_query|by eapply qfacts_raise].
  - intros f' src shape i o rest st r Hin Ht IH [Ho Hok]%items_ok_cons Hnd Hsrc Hs.
    apply NoDup_cons in Hnd as [Hi Hnd].
    destruct (IH Hok Hnd Hsrc Hs) as (ds & vs & qs & G & F).
    exists ds, vs, (Query src i (visited st) :: qs). split.
    + by apply grows_far.
    + eapply qfacts_far; try done. apply (grows_fresh _ _ _ _ _ G).
  - intros f' src shape i o rest st st1 r Hin Ht Hd IHP IHQ [Ho Hok]%items_ok_cons
      Hnd Hsrc Hs.
    apply NoDup_cons in Hnd as [Hi Hnd].
    destruct IHP as (ds1 & vs1 & qs1 & G1 & F1); [simpl; set_solver|done|].
    simpl in G1, F1.
    destruct (IHQ Hok Hnd) as (ds2 & vs2 & qs2 & G2 & F2);
      [apply (grows_mono _ _ _ _ _ G1); simpl; set_solver|done|].
    exists (i :: ds1 ++ ds2), (o :: vs1 ++ vs2), (Query src i (visited st) :: qs1 ++ qs2).
    split.
    + apply grows_near; [done..|]. by eapply grows_trans.
    + by eapply qfacts_near.
  - intros f' src shape i o rest st st1 s Hin Ht Hd Hne IHP [Ho Hok]%items_ok_cons
      Hnd Hsrc Hs. simpl.
    destruct IHP as (ds1 & vs1 & qs1 & G1 & F1); [simpl; set_solver|done|].
    simpl in G1, F1.
    exists (i :: ds1), (o :: vs1), (Query src i (visited st) :: qs1).
    split; [by apply grows_near|by eapply qfacts_stop].
  - split.
    + intros src shape st st' s Hsrc Hs Hd. specialize (HP src shape st).
      rewrite Hd in HP. by apply HP.
    + intros src shape items st st' s Hok Hnd Hsrc Hs Hd.
      specialize (HQ src shape items st). rewrite Hd in HQ. by apply HQ.
Qed.

(** *** Reachability and closure *)

(** A touching step between two positions of [C]. *)
Definition edge (C : list nat) (x y : nat) : Prop :=
  x ∈ C ∧ y ∈ C ∧ touches_b x y = true.

Lemma edge_mono C C' x y : C ⊆ C' → edge C x y → edge C' x y.
Proof. intros H (?&?&?). split_and!; auto. Qed.

Lemma chain_mono C C' x y : C ⊆ C' → rtc (edge C) x y → rtc (edge C') x y.
Proof. intros H. apply rtc_subrel. intros ??. by apply edge_mono. Qed.

(** What holds of the positions [ds] visited by the loop of [dfs] for the
    shape at [src] over [items], ended in [st'] with status [s]: they are
    reached from [src] by touching steps, and after a complete loop no
    position left unvisited touches [src] or any of them. *)
Record dfacts (src : nat) (items : list (nat * Shape)) (st' : state)
    (s : status) (ds : list nat) : Prop := DFacts {
  df_reach : ∀ d, d ∈ ds → rtc (edge (src :: ds)) src d;
  df_closed_src : s = Done → ∀ j, j ∈ items.*1 → j ∉ visited st' →
    asked src j = Some (Return false);
  df_closed : s = Done → ∀ d, d ∈ ds → ∀ j, j < length shapes → j ∉ visited st' →
    asked d j = Some (Return false) }.

Lemma fst_items0 j : j ∈ items0.*1 ↔ j < length shapes.
Proof. rewrite fst_enumerate, elem_of_seq. lia. Qed.

Lemma dfs_done f :
  (∀ src shape st st' s,
     src ∈ visited st → shapes !! src = Some shape →
     dfs f src shape st = (st', s) →
     ∃ ds vs qs, grows st st' ds vs qs ∧ dfacts src items0 st' s ds) ∧
  (∀ src shape items st st' s,
     items_ok items →
     src ∈ visited st → shapes !! src = Some shape →
     dfs_loop (Some (dfs f)) src shape items st = (st', s) →
     ∃ ds vs qs, grows st st' ds vs qs ∧ dfacts src items st' s ds).
Proof.
  pose (P := λ (f src : nat) (shape : Shape) (st : state) (r : state * status),
    src ∈ visited st → shapes !! src = Some shape →
    ∃ ds vs qs, grows st r.1 ds vs qs ∧ dfacts src items0 r.1 r.2 ds).
  pose (Q := λ (f src : nat) (shape : Shape) (items : list (nat * Shape))
             (st : state) (r : state * status),
    items_ok items →
    src ∈ visited st → shapes !! src = Some shape →
    ∃ ds vs qs, grows st r.1 ds vs qs ∧ dfacts src items r.1 r.2 ds).
  destruct (dfs_run_ind P Q) with (f := f) as [HP HQ]; unfold P, Q in *; simpl;
    clear P Q.
  - intros src shape st Hall Hsrc Hs. exists [], [], []. split; [apply grows_refl|].
    split; [by intros ? ?%elem_of_nil| |by intros _ ? ?%elem_of_nil].
    intros _ j ([j' o] & -> & Hj)%list_elem_of_fmap Hv. destruct Hv.
    by apply (proj1 (Forall_forall _ _) Hall (j', o)).
  - intros. exists [], [], []. split; [apply grows_refl|].
    split; [by intros ? ?%elem_of_nil|done|done].
  - intros f' src shape st r H. apply H, items_ok_enumerate.
  - intros. exists [], [], []. split; [apply grows_refl|].
    split; [by intros ? ?%elem_of_nil|by intros _ ? ?%elem_of_nil|by intros _ ? ?%elem_of_nil].
  - intros f' src shape i o rest st r Hin IH [_ Hok]%items_ok_cons Hsrc Hs.
    destruct (IH Hok Hsrc Hs) as (ds & vs & qs & G & [F1 F2 F3]).
    exists ds, vs, qs. split; [done|]. split; [done| |done].
    intros Hd j [Hji|Hj]%elem_of_cons Hv; [|by apply F2].
    simpl in Hji. subst j. destruct Hv. by apply (grows_mono _ _ _ _ _ G).
  - intros f' src shape i o rest st e Hin Ht [Ho Hok]%items_ok_cons Hsrc Hs.
    exists [], [], [Query src i (visited st)].
    split; [apply grows_log_query|]. split; [by intros ? ?%elem_of_nil|done|done].
  - intros f' src shape i o rest st r Hin Ht IH [Ho Hok]%items_ok_cons Hsrc Hs.
    destruct (IH Hok Hsrc Hs) as (ds & vs & qs & G & [F1 F2 F3]).
    exists ds, vs, (Query src i (visited st) :: qs). split; [by apply grows_far|].
    split; [done| |done].
    intros Hd j [Hji|Hj]%elem_of_cons Hv; [|by apply F2].
    simpl in Hji. subst j. by rewrite (asked_Some _ _ _ _ Hs Ho), Ht.
  - intros f' src shape i o rest st st1 r Hin Ht Hd IHP IHQ [Ho Hok]%items_ok_cons
      Hsrc Hs.
    destruct IHP as (ds1 & vs1 & qs1 & G1 & [A1 A2 A3]); [simpl; set_solver|done|].
    simpl in G1, A1, A2, A3.
    destruct (IHQ Hok) as (ds2 & vs2 & qs2 & G2 & [B1 B2 B3]);
      [apply (grows_mono _ _ _ _ _ G1); simpl; set_solver|done|].
    pose proof (grows_mono _ _ _ _ _ G2) as Hm2.
    assert (Hedge : edge (src :: i :: ds1 ++ ds2) src i).
    { split_and!; [by left|right; by left|].
      unfold touches_b. by rewrite (asked_Some _ _ _ _ Hs Ho), Ht. }
    exists (i :: ds1 ++ ds2), (o :: vs1 ++ vs2), (Query src i (visited st) :: qs1 ++ qs2).
    split; [apply grows_near; [done..|]; by eapply grows_trans|].
    split.
    + intros d [->|[Hd1|Hd2]%elem_of_app]%elem_of_cons.
      * by apply rtc_once.
      * eapply rtc_l; [exact Hedge|].
        eapply chain_mono; [|by apply A1]. set_solver.
      * eapply chain_mono; [|by apply B1]. set_solver.
    + intros Hr j [Hji|Hj]%elem_of_cons Hv; [|by apply B2].
      simpl in Hji. subst j. destruct Hv. apply Hm2, (grows_mono _ _ _ _ _ G1). simpl. set_solver.
    + intros Hr d [->|[Hd1|Hd2]%elem_of_app]%elem_of_cons j Hj Hv.
      * apply A2; [done|by apply fst_items0|]. intros Hv'. by apply Hv, Hm2.
      * apply A3; [done..|]. intros Hv'. by apply Hv, Hm2.
      * by apply B3.
  - intros f' src shape i o rest st st1 s Hin Ht Hd Hne IHP [Ho Hok]%items_ok_cons
      Hsrc Hs. simpl.
    destruct IHP as (ds1 & vs1 & qs1 & G1 & [A1 A2 A3]); [simpl; set_solver|done|].
    simpl in G1, A1, A2, A3.
    assert (Hedge : edge (src :: i :: ds1) src i).
    { split_and!; [by left|right; by left|].
      unfold touches_b. by rewrite (asked_Some _ _ _ _ Hs Ho), Ht. }
    exists (i :: ds1), (o :: vs1), (Query src i (visited st) :: qs1).
    split; [by apply grows_near|]. split; [|done|done].
    intros d [->|Hd1]%elem_of_cons.
    + by apply rtc_once.
    + eapply rtc_l; [exact Hedge|].
      eapply chain_mono; [|by apply A1]. set_solver.
  - split.
    + intros src shape st st' s Hsrc Hs Hd. specialize (HP src shape st).
      rewrite Hd in HP. by apply HP.
    + intros src shape items st st' s Hok Hsrc Hs Hd.
      specialize (HQ src shape items st). rewrite Hd in HQ. by apply HQ.
Qed.

Lemma grows_inj st st' ds vs qs ds' vs' qs' :
  grows st st' ds vs qs → grows st st' ds' vs' qs' →
  ds = ds' ∧ vs = vs' ∧ qs = qs'.
Proof.
  intros [_ Hm Hg Hq _ _ _ _ _] [_ Hm' Hg' Hq' _ _ _ _ _].
  rewrite Hm in Hm'. rewrite Hg in Hg'. rewrite Hq in Hq'.
  by apply app_inv_head in Hm', Hg', Hq'.
Qed.

Lemma grows_lt st st' ds vs qs d : grows st st' ds vs qs → d ∈ ds → d < length shapes.
Proof.
  intros G Hd. pose proof (grows_shapes _ _ _ _ _ G) as H.
  apply list_elem_of_lookup in Hd as [k Hk].
  destruct (Forall2_lookup_l _ _ _ _ _ H Hk) as (s & _ & Hs).
  by eapply lookup_lt_Some.
Qed.

(** *** The outer loop: oracle calls *)

(** What holds of the log of oracle calls whenever the outer loop is at
    the head of an iteration, or has ended with status [s]. *)
Record qinv (st : state) (s : status) : Prop := QInv {
  qi_src : ∀ q, q ∈ queries st → q_src q ∈ q_visited q;
  qi_dst : ∀ q, q ∈ queries st → q_dst q ∉ q_visited q;
  qi_seen : ∀ q, q ∈ queries st → q_src q ∈ visited st;
  qi_range : ∀ q, q ∈ queries st → q_dst q < length shapes;
  qi_nodup : NoDup (call <$> queries st);
  qi_done : answered s → ∀ q, q ∈ queries st →
    ∃ t, asked (q_src q) (q_dst q) = Some (Return t);
  qi_raised : ∀ msg, s = Raised (RuntimeError msg) →
    msg = "Distance computation failed." ∧
    ∃ q, last (queries st) = Some q ∧ fails_at (q_src q) (q_dst q);
  qi_within : ∀ j, j ∈ visited st → j < length shapes }.

Lemma qinv_init : qinv init Done.
Proof.
  split; simpl; try done; try (by intros ? ?%elem_of_nil).
  - constructor.
  - by intros _ ? ?%elem_of_nil.
Qed.

Lemma qinv_close_group st : qinv st Done → qinv (close_group st) Done.
Proof. by intros []. Qed.

Lemma qinv_seed st st1 s i shape ds vs qs :
  qinv st Done → i ∉ visited st → shapes !! i = Some shape →
  grows (seed i shape st) st1 ds vs qs →
  qfacts i items0 (seed i shape st) s ds qs →
  qinv st1 s.
Proof.
  intros I Hi Hs G F.
  pose proof (grows_visited _ _ _ _ _ G) as Hv. simpl in Hv.
  pose proof (grows_queries _ _ _ _ _ G) as Hq. simpl in Hq.
  pose proof (grows_fresh _ _ _ _ _ G) as Hf. simpl in Hf.
  assert (Hnew : ∀ q, q ∈ qs → q_src q ∈ i :: ds).
  { intros q [[-> _]|H]%(qf_from _ _ _ _ _ _ F); [by left|by right]. }
  assert (Hfresh : ∀ d, d ∈ i :: ds → d ∉ visited st).
  { intros d [->|H%Hf]%elem_of_cons; [done|]. clear -H. set_solver. }
  split; rewrite ?Hq.
  - intros q [H|H]%elem_of_app; [by apply (qi_src _ _ I)|by apply (qf_src _ _ _ _ _ _ F)].
  - intros q [H|H]%elem_of_app; [by apply (qi_dst _ _ I)|by apply (qf_dst _ _ _ _ _ _ F)].
  - intros q [H|H]%elem_of_app; rewrite Hv.
    + apply (qi_seen _ _ I) in H. clear -H. set_solver.
    + apply Hnew in H. clear -H. set_solver.
  - intros q [H|H]%elem_of_app; [by apply (qi_range _ _ I)|by apply (qf_range _ _ _ _ _ _ F)].
  - rewrite fmap_app. apply NoDup_app. split_and!;
      [apply (qi_nodup _ _ I)| |apply (qf_nodup _ _ _ _ _ _ F)].
    intros c (q1 & -> & Hin1)%list_elem_of_fmap (q2 & Hq2 & Hin2)%list_elem_of_fmap.
    injection Hq2 as Hs12 _.
    apply (qi_seen _ _ I) in Hin1. apply Hnew, Hfresh in Hin2.
    apply Hin2. by rewrite <-Hs12.
  - intros Hans q [H|H]%elem_of_app;
      [by apply (qi_done _ _ I answered_Done)|by apply (qf_done _ _ _ _ _ _ F)].
  - intros e He. destruct (qf_raised _ _ _ _ _ _ F e He) as (-> & q & Hl & Hfq).
    split; [done|]. exists q. split; [by apply last_app_r|done].
  - intros j. rewrite Hv. intros [Hj|[Hj|Hj]%elem_of_union]%elem_of_union.
    + apply elem_of_list_to_set in Hj. by eapply grows_lt.
    + apply elem_of_singleton in Hj as ->. by eapply lookup_lt_Some.
    + by apply (qi_within _ _ I).
Qed.

Lemma main_queries room items st st' s :
  items_ok items → qinv st Done →
  main_loop room items st = (st', s) → qinv st' s.
Proof.
  revert st. induction items as [|[i shape] rest IH]; intros st Hok I; simpl.
  - by intros [= <- <-].
  - apply items_ok_cons in Hok as [Hs Hok].
    destruct (decide (i ∈ visited st)) as [Hi|Hi]; [by apply IH|].
    destruct (dfs room i shape (seed i shape st)) as [st1 s1] eqn:Hd.
    assert (Hv : i ∈ visited (seed i shape st)) by (simpl; set_solver).
    destruct (proj1 (dfs_queries room) i shape _ _ _ Hv Hs Hd)
      as (ds & vs & qs & G & F).
    pose proof (qinv_seed _ _ _ _ _ _ _ _ I Hi Hs G F) as I1.
    destruct s1; [|by intros [= <- <-]..].
    apply IH; [done|]. by apply qinv_close_group.
Qed.

(** *** The outer loop: the depth of the recursion *)

Lemma main_room room items st :
  length shapes ≤ S room → items_ok items →
  (main_loop room items st).2 ≠ Raised RecursionError.
Proof.
  intros Hroom. revert st.
  induction items as [|[i shape] rest IH]; intros st Hok; simpl; [done|].
  apply items_ok_cons in Hok as [Hs Hok].
  destruct (decide (i ∈ visited st)) as [Hi|Hi]; [by apply IH|].
  destruct (dfs room i shape (seed i shape st)) as [st1 s1] eqn:Hd.
  assert (s1 ≠ Raised RecursionError) as Hs1.
  { change s1 with (st1, s1).2. rewrite <-Hd. apply (dfs_room room).
    apply Nat.lt_succ_r. eapply Nat.lt_le_trans; [|exact Hroom].
    assert (Hn : size (list_to_set (seq 0 (length shapes)) : gset nat)
                 = length shapes).
    { rewrite size_list_to_set by apply NoDup_seq. apply length_seq. }
    apply Nat.lt_le_trans
      with (size (list_to_set (seq 0 (length shapes)) : gset nat)); [|lia].
    apply subset_size. unfold unvisited. simpl.
    assert (i ∈ (list_to_set (seq 0 (length shapes)) : gset nat)).
    { apply elem_of_list_to_set, elem_of_seq. apply lookup_lt_Some in Hs. lia. }
    set_solver. }
  destruct s1; [by apply IH|done].
Qed.

(** *** The outer loop: the clusters *)

(** What holds of a closed cluster [c], given the clusters [earlier]
    closed before it: its first member, the seed, is the least position
    outside the earlier clusters; every other member is reached from the
    seed by touching steps inside [c]; and no member touches a position
    outside [c] and the earlier clusters. *)
Definition cfacts (earlier : list (list nat)) (c : list nat) : Prop :=
  ∃ sd ds, c = sd :: ds ∧
    (∀ j, j < sd → j ∈ concat earlier) ∧
    (∀ d, d ∈ ds → rtc (edge c) sd d) ∧
    (∀ d j, d ∈ c → j < length shapes → j ∉ concat earlier → j ∉ c →
       asked d j = Some (Return false)).

(** What holds at the head of the iteration of the outer loop for
    position [k]. *)
Record minv (k : nat) (st : state) : Prop := MInv {
  mi_visited : visited st = list_to_set (concat (clusters st));
  mi_nodup : NoDup (concat (clusters st));
  mi_shapes :
    Forall2 (Forall2 (λ i s, shapes !! i = Some s)) (clusters st) (groups st);
  mi_before : ∀ j, j < k → j ∈ visited st;
  mi_cluster : ∀ m c, clusters st !! m = Some c → cfacts (take m (clusters st)) c;
  mi_queries : ∃ qss, queries st = concat qss ∧
    Forall2 (λ c qs, tail c = found qs ∧ ∀ q, q ∈ qs → q_src q ∈ c)
      (clusters st) qss }.

Lemma minv_init : minv 0 init.
Proof.
  split; simpl; try done.
  - constructor.
  - lia.
  - by exists [].
Qed.

Lemma minv_skip k st : minv k st → k ∈ visited st → minv (S k) st.
Proof.
  intros [] Hk. split; try done.
  intros j Hj. destruct (decide (j = k)) as [->|]; [done|]. apply mi_before0. lia.
Qed.

Lemma minv_seed room k x st st1 :
  minv k st → k ∉ visited st → shapes !! k = Some x →
  dfs room k x (seed k x st) = (st1, Done) →
  minv (S k) (close_group st1).
Proof.
  intros I Hk Hx Hd.
  assert (Hv : k ∈ visited (seed k x st)) by (simpl; set_solver).
  destruct (proj1 (dfs_queries room) k x _ _ _ Hv Hx Hd) as (ds & vs & qs & G & F).
  destruct (proj1 (dfs_done room) k x _ _ _ Hv Hx Hd) as (ds' & vs' & qs' & G' & D).
  destruct (grows_inj _ _ _ _ _ _ _ _ G G') as (<- & <- & <-). clear G'.
  destruct G as [Gv Gm Gg Gq Ggs Gc Gn Gf Gs]. simpl in *.
  destruct I as [Iv In Is Ib Ic (qss & Iq & Iqs)].
  assert (Hkds : k ∉ ds).
  { intros H%Gf. clear -H. set_solver. }
  assert (Hold : ∀ j, j ∈ concat (clusters st) → j ∉ k :: ds).
  { intros j Hj [->|H%Gf]%elem_of_cons.
    - apply Hk. rewrite Iv. by apply elem_of_list_to_set.
    - apply H. rewrite Iv. apply elem_of_union_r. by apply elem_of_list_to_set. }
  split; simpl; rewrite ?Gc, ?Gm, ?Ggs, ?Gg, ?Gq.
  - rewrite Gv, Iv, concat_app, list_to_set_app_L. simpl.
    rewrite app_nil_r. clear. set_solver.
  - rewrite concat_app. simpl. rewrite app_nil_r.
    apply NoDup_app. split_and!; [done|done|]. by apply NoDup_cons.
  - apply Forall2_app; [done|]. repeat constructor; done.
  - intros j Hj. rewrite Gv. destruct (decide (j = k)) as [->|].
    + clear. set_solver.
    + do 2 apply elem_of_union_r. apply Ib. lia.
  - intros m c [Hm|[Hm Hc]]%lookup_app_Some.
    + rewrite take_app_le by (apply lookup_lt_Some in Hm; lia). by apply Ic.
    + apply list_lookup_singleton_Some in Hc as [Hm0 <-].
      replace m with (length (clusters st)) by lia.
      rewrite take_app_length. exists k, ds. split_and!; [done|..].
      * intros j Hj%Ib. rewrite Iv in Hj. by apply elem_of_list_to_set in Hj.
      * apply (df_reach _ _ _ _ _ D).
      * intros d j Hd' Hj Hj1 Hj2.
        assert (Hjv : j ∉ visited st1).
        { rewrite Gv, Iv. intros [H|[H|H]%elem_of_union]%elem_of_union.
          - apply Hj2. right. by apply elem_of_list_to_set in H.
          - apply Hj2. apply elem_of_singleton in H as ->. by left.
          - by apply elem_of_list_to_set in H. }
        apply elem_of_cons in Hd' as [->|Hd'].
        -- apply (df_closed_src _ _ _ _ _ D); [done| |done]. by apply fst_items0.
        -- by apply (df_closed _ _ _ _ _ D).
  - exists (qss ++ [qs]). split.
    + rewrite concat_app. simpl. by rewrite app_nil_r, Iq.
    + apply Forall2_app; [done|]. constructor; [|constructor]. split.
      * simpl. apply (qf_found _ _ _ _ _ _ F).
      * intros q [[-> _]|H]%(qf_from _ _ _ _ _ _ F); [by left|by right].
Qed.

Lemma main_done room l : ∀ k st st',
  (∀ j x, l !! j = Some x → shapes !! (k + j) = Some x) →
  k + length l = length shapes →
  minv k st →
  main_loop room (enumerate k l) st = (st', Done) →
  minv (length shapes) st'.
Proof.
  induction l as [|x l IH]; intros k st st' Hl Hlen I; simpl.
  - intros [= <-]. simpl in Hlen. by replace (length shapes) with k by lia.
  - assert (Hx : shapes !! k = Some x).
    { rewrite <-(Nat.add_0_r k). by apply Hl. }
    assert (Hl' : ∀ j y, l !! j = Some y → shapes !! (S k + j) = Some y).
    { intros j y Hj. replace (S k + j) with (k + S j) by lia. by apply Hl. }
    simpl in Hlen.
    destruct (decide (k ∈ visited st)) as [Hk|Hk].
    + apply IH; [done|lia|by apply minv_skip].
    + destruct (dfs room k x (seed k x st)) as [st1 s1] eqn:Hd.
      destruct s1; [|done..].
      apply IH; [done|lia|by eapply minv_seed].
Qed.

(** *** The whole run *)

Local Abbreviation run := (run distance limit shapes).

Lemma oracle_total_never_fails : oracle_total → never_fails.
Proof.
  intros Htot q _ (a & b & Ha & Hb & Hd).
  destruct (Htot a b); [by eapply list_elem_of_lookup_2..|done].
Qed.

Lemma touches_b_true i j : touches_b i j = true ↔ touches i j.
Proof.
  unfold touches_b, touches, asked, are_shapes_touching. split.
  - destruct (shapes !! i) as [a|]; [|done]. destruct (shapes !! j) as [b|]; [|done].
    destruct (distance a b) as [d|] eqn:Hd; [|done].
    destruct (float_eq d float_zero) eqn:He; [|done]. intros _. by exists a, b, d.
  - intros (a & b & d & -> & -> & -> & ->). done.
Qed.

Lemma asked_false i j : asked i j = Some (Return false) → ¬ touches i j.
Proof.
  intros H Ht%touches_b_true. unfold touches_b in Ht. by rewrite H in Ht.
Qed.

Lemma edge_step c x y : edge c x y → step c x y.
Proof. intros (?&?&?%touches_b_true). split_and!; auto. Qed.

Lemma step_link c x y : step c x y → link c x y.
Proof. intros (?&?&?). split_and!; auto. Qed.

(** An input of at most [limit + 1] shapes does not use up the room on
    the stack. *)
Lemma run_room : length shapes ≤ S limit → run.2 ≠ Raised RecursionError.
Proof. intros H. apply main_room; [done|apply items_ok_enumerate]. Qed.

Lemma run_queries : qinv run.1 run.2.
Proof.
  destruct run as [st s] eqn:Hr. eapply main_queries; [| |exact Hr].
  - apply items_ok_enumerate.
  - apply qinv_init.
Qed.

Lemma run_done st : run = (st, Done) → minv (length shapes) st.
Proof.
  intros Hr. eapply (main_done _ shapes 0); [done|done|apply minv_init|exact Hr].
Qed.

(** When the oracle never fails, the run ends well or on
    [RecursionError]. *)
Lemma run_never_fails : never_fails → answered run.2.
Proof.
  intros Hnf msg Hr. pose proof run_queries as Hq.
  destruct (qi_raised _ _ Hq msg Hr) as (_ & q & Hl & Hfail).
  destruct (Hnf q); [|done]. by apply last_Some_elem_of.
Qed.

Lemma run_never_fails_room :
  never_fails → length shapes ≤ S limit → run.2 = Done.
Proof.
  intros Hnf%run_never_fails Hroom%run_room.
  destruct run.2 as [|[msg|]]; [done|by destruct (Hnf msg)|done].
Qed.

Lemma group_touching_shapes_Return gs :
  group_touching_shapes distance limit shapes = Return gs ↔
  ∃ st, run = (st, Done) ∧ groups st = gs.
Proof.
  unfold group_touching_shapes. destruct run as [st []]; split.
  - intros [= <-]. by exists st.
  - by intros (st' & [= <-] & <-).
  - done.
  - by intros (st' & [=] & _).
Qed.

Lemma group_touching_shapes_Raise e :
  group_touching_shapes distance limit shapes = Raise e ↔ run.2 = Raised e.
Proof.
  unfold group_touching_shapes. destruct run as [st []]; simpl; split;
    try done; by intros [= ->].
Qed.

(** On a successful run, the ghost [cluster_positions] are the positions
    of the shapes returned. *)
Lemma cluster_positions_result gs :
  group_touching_shapes distance limit shapes = Return gs →
  shapes_at (cluster_positions distance limit shapes) gs.
Proof.
  intros (st & Hr & <-)%group_touching_shapes_Return.
  unfold cluster_positions. rewrite Hr. simpl. apply (mi_shapes _ _ (run_done _ Hr)).
Qed.

Lemma never_fails_Return :
  never_fails → length shapes ≤ S limit → ∃ st, run = (st, Done).
Proof.
  intros Hnf Hroom. pose proof (run_never_fails_room Hnf Hroom) as H.
  destruct run as [st s]. simpl in H. subst. by exists st.
Qed.

End Single.

(** ** Running the code by hand *)

Lemma dfs_loop_skip rec src shape i o rest (st : state) :
  i ∈ visited st →
  dfs_loop distance rec src shape ((i, o) :: rest) st
  = dfs_loop distance rec src shape rest st.
Proof. intros H. simpl. by rewrite decide_True. Qed.

Lemma dfs_loop_near rec src shape i o rest (st : state) :
  i ∉ visited st → touching shape o = Return true →
  dfs_loop distance (Some rec) src shape ((i, o) :: rest) st
  = match rec i o (visit i o (log_query src i st)) with
    | (st', Done) => dfs_loop distance (Some rec) src shape rest st'
    | stop => stop
    end.
Proof. intros H Ht. simpl. by rewrite decide_False, Ht. Qed.

Lemma dfs_loop_far rec src shape i o rest (st : state) :
  i ∉ visited st → touching shape o = Return false →
  dfs_loop distance (Some rec) src shape ((i, o) :: rest) st
  = dfs_loop distance (Some rec) src shape rest (log_query src i st).
Proof. intros H Ht. simpl. by rewrite decide_False, Ht. Qed.

Lemma dfs_loop_raise rec src shape i o rest (st : state) e :
  i ∉ visited st → touching shape o = Raise e →
  dfs_loop distance (Some rec) src shape ((i, o) :: rest) st
  = (log_query src i st, Raised e).
Proof. intros H Ht. simpl. by rewrite decide_False, Ht. Qed.

Lemma dfs_loop_full src shape i o rest (st : state) :
  i ∉ visited st →
  dfs_loop distance None src shape ((i, o) :: rest) st
  = (st, Raised RecursionError).
Proof. intros H. simpl. by rewrite decide_False. Qed.

Lemma dfs_loop_nil rec src shape (st : state) :
  dfs_loop distance rec src shape [] st = (st, Done).
Proof. done. Qed.

Lemma main_loop_nil shapes room (st : state) :
  main_loop distance shapes room [] st = (st, Done).
Proof. done. Qed.

Lemma main_loop_skip shapes room i shape rest (st : state) :
  i ∈ visited st →
  main_loop distance shapes room ((i, shape) :: rest) st
  = main_loop distance shapes room rest st.
Proof. intros H. simpl. by rewrite decide_True. Qed.

Lemma main_loop_seed shapes room i shape rest (st : state) :
  i ∉ visited st →
  main_loop distance shapes room ((i, shape) :: rest) st
  = match dfs distance shapes room i shape (seed i shape st) with
    | (st', Done) => main_loop distance shapes room rest (close_group st')
    | stop => stop
    end.
Proof. intros H. simpl. by rewrite decide_False. Qed.

Lemma dfs_S shapes room src shape (st : state) :
  dfs distance shapes (S room) src shape st
  = dfs_loop distance (Some (dfs distance shapes room)) src shape
      (enumerate 0 shapes) st.
Proof. done. Qed.

Lemma dfs_O shapes src shape (st : state) :
  dfs distance shapes 0 src shape st
  = dfs_loop distance None src shape (enumerate 0 shapes) st.
Proof. done. Qed.

Lemma touching_zero a b d :
  distance a b = Some d → float_eq d float_zero = true →
  touching a b = Return true.
Proof. unfold are_shapes_touching. by intros -> ->. Qed.

Lemma float_pos_ne d : float_pos d = true → float_eq d float_zero = false.
Proof. by destruct d as [[]|[]| |[] ? ?]. Qed.

Lemma touching_pos a b d :
  distance a b = Some d → float_pos d = true →
  touching a b = Return false.
Proof.
  unfold are_shapes_touching. intros -> H. by rewrite (float_pos_ne _ H).
Qed.

Ltac side_tac :=
  solve [ eassumption
        | cbn [visited visit log_query seed init close_group]; set_solver ].

Ltac run_tac :=
  cbn [length enumerate];
  repeat first
    [ rewrite dfs_S; cbn [enumerate]
    | rewrite dfs_O; cbn [enumerate]
    | rewrite dfs_loop_full by side_tac
    | rewrite dfs_loop_skip by side_tac
    | rewrite dfs_loop_near by side_tac
    | rewrite dfs_loop_far by side_tac
    | erewrite dfs_loop_raise by side_tac
    | rewrite main_loop_skip by side_tac
    | rewrite main_loop_seed by side_tac
    | rewrite dfs_loop_nil
    | rewrite main_loop_nil
    | progress cbv beta iota ].

(** Scenario 3: a chain A - B - C ends in one cluster, whatever the
    oracle says of A and C. *)
Lemma scenario_chain limit A B C dAB dBC :
  2 ≤ limit →
  distance A B = Some dAB → float_eq dAB float_zero = true →
  distance B C = Some dBC → float_eq dBC float_zero = true →
  group_touching_shapes distance limit [A; B; C] = Return [[A; B; C]].
Proof.
  intros Hl H1 H2 H3 H4. destruct limit as [|[|limit]]; [lia..|].
  pose proof (touching_zero _ _ _ H1 H2) as HAB.
  pose proof (touching_zero _ _ _ H3 H4) as HBC.
  unfold group_touching_shapes, run. destruct limit; by run_tac.
Qed.

(** Scenario 4: shapes that are pairwise apart end in clusters of their
    own. *)
Lemma scenario_apart limit A B C dAB dAC dBC :
  1 ≤ limit →
  distance A B = Some dAB → float_pos dAB = true →
  distance A C = Some dAC → float_pos dAC = true →
  distance B C = Some dBC → float_pos dBC = true →
  group_touching_shapes distance limit [A; B; C] = Return [[A]; [B]; [C]].
Proof.
  intros Hl H1 H2 H3 H4 H5 H6. destruct limit as [|limit]; [lia|].
  pose proof (touching_pos _ _ _ H1 H2) as HAB.
  pose proof (touching_pos _ _ _ H3 H4) as HAC.
  pose proof (touching_pos _ _ _ H5 H6) as HBC.
  unfold group_touching_shapes, run. by run_tac.
Qed.

Lemma touching_fail a b :
  distance a b = None →
  touching a b = Raise (RuntimeError "Distance computation failed.").
Proof. unfold are_shapes_touching. by intros ->. Qed.

(** Scenario 5: the oracle fails on the first comparison. *)
Lemma scenario_first_fails limit A B rest :
  1 ≤ limit →
  distance A B = None →
  group_touching_shapes distance limit (A :: B :: rest)
  = Raise (RuntimeError "Distance computation failed.").
Proof.
  intros Hl HAB%touching_fail. destruct limit as [|limit]; [lia|].
  unfold group_touching_shapes, run. by run_tac.
Qed.

(** Inputs of length 0 and 1 need no oracle call. *)
Lemma small_input limit shapes :
  length shapes ≤ 1 →
  group_touching_shapes distance limit shapes
    = Return (match shapes with [] => [] | x :: _ => [[x]] end) ∧
  oracle_log distance limit shapes = [].
Proof.
  destruct shapes as [|x [|y l]]; simpl; [done| |lia]. intros _.
  unfold group_touching_shapes, oracle_log, run. destruct limit; by run_tac.
Qed.

(** The result only depends on what the oracle says of the shapes of the
    input. *)
Lemma dfs_loop_ext distance' (shapes : list Shape) rec rec' src shape items
    (st : state) :
  (∀ a b, a ∈ shapes → b ∈ shapes → distance' a b = distance a b) →
  option_Forall2
    (λ r' r, ∀ src shape st, shape ∈ shapes → r' src shape st = r src shape st)
    rec' rec →
  shape ∈ shapes → (∀ i o, (i, o) ∈ items → o ∈ shapes) →
  dfs_loop distance' rec' src shape items st
  = dfs_loop distance rec src shape items st.
Proof.
  intros Hext Hrec Hs. revert st.
  induction items as [|[i o] rest IH]; intros st Hitems; simpl; [done|].
  assert (Ho : o ∈ shapes) by (apply (Hitems i); by left).
  assert (Hrest : ∀ j p, (j, p) ∈ rest → p ∈ shapes).
  { intros j p Hj. apply (Hitems j). by right. }
  destruct (decide (i ∈ visited st)); [by apply IH|].
  destruct Hrec as [r' r Hrec|]; [|done].
  unfold are_shapes_touching. rewrite (Hext _ _ Hs Ho).
  destruct (distance shape o) as [d|]; [|done].
  destruct (float_eq d float_zero); [|by apply IH].
  rewrite (Hrec _ _ _ Ho).
  destruct (r i o _) as [st1 []]; [by apply IH|done].
Qed.

Lemma items0_shapes (shapes : list Shape) i o :
  (i, o) ∈ enumerate 0 shapes → o ∈ shapes.
Proof. intros [_ H]%elem_of_enumerate. by eapply list_elem_of_lookup_2. Qed.

Lemma dfs_ext distance' (shapes : list Shape) room src shape (st : state) :
  (∀ a b, a ∈ shapes → b ∈ shapes → distance' a b = distance a b) →
  shape ∈ shapes →
  dfs distance' shapes room src shape st = dfs distance shapes room src shape st.
Proof.
  intros Hext. revert src shape st.
  induction room as [|room IH]; intros src shape st Hs; simpl.
  - apply (dfs_loop_ext distance' shapes);
      [done|constructor|done|apply items0_shapes].
  - apply (dfs_loop_ext distance' shapes);
      [done|constructor; by intros; apply IH|done|apply items0_shapes].
Qed.

Lemma group_touching_shapes_ext distance' limit (shapes : list Shape) :
  (∀ a b, a ∈ shapes → b ∈ shapes → distance' a b = distance a b) →
  group_touching_shapes distance' limit shapes
  = group_touching_shapes distance limit shapes.
Proof.
  intros Hext. unfold group_touching_shapes, run. revert limit.
  intros room. generalize (@init Shape).
  assert (Hitems : ∀ i o, (i, o) ∈ enumerate 0 shapes → o ∈ shapes)
    by apply items0_shapes.
  revert Hitems. generalize (enumerate 0 shapes) as items.
  assert (Hm : ∀ items st, (∀ i o, (i, o) ∈ items → o ∈ shapes) →
    main_loop distance' shapes room items st = main_loop distance shapes room items st).
  { induction items as [|[i o] rest IH]; intros st Hitems; simpl; [done|].
    assert (Ho : o ∈ shapes) by (apply (Hitems i); by left).
    assert (Hrest : ∀ j p, (j, p) ∈ rest → p ∈ shapes).
    { intros j p Hj. apply (Hitems j). by right. }
    destruct (decide (i ∈ visited st)); [by apply IH|].
    rewrite (dfs_ext _ _ _ _ _ _ Hext Ho).
    destruct (dfs distance shapes room i o _) as [st1 []]; [by apply IH|done]. }
  intros items Hitems st. by rewrite Hm.
Qed.

(** ** Clustering the flattened result again *)

Lemma drop_cons_inv {A} (l : list A) m x t :
  drop m l = x :: t → l !! m = Some x ∧ drop (S m) l = t ∧ m < length l.
Proof.
  intros H.
  assert (Hx : l !! m = Some x).
  { rewrite <-(Nat.add_0_r m), <-lookup_drop. by rewrite H. }
  split_and!; [done| |by eapply lookup_lt_Some].
  rewrite (drop_S _ _ _ Hx) in H. congruence.
Qed.

Lemma drop_app_inv {A} (l : list A) m l1 l2 :
  m ≤ length l → drop m l = l1 ++ l2 →
  drop (m + length l1) l = l2 ∧ m + length l1 ≤ length l.
Proof.
  intros Hm H. split.
  - by rewrite <-drop_drop, H, drop_app_length.
  - pose proof (length_drop l m) as Hl. rewrite H, length_app in Hl. lia.
Qed.

(** The visited positions are exactly those below [m]. *)
Definition at_prefix (m : nat) (st : state) : Prop :=
  visited st = list_to_set (seq 0 m).

Lemma at_prefix_elem m st j : at_prefix m st → j ∈ visited st ↔ j < m.
Proof.
  unfold at_prefix. intros ->. rewrite elem_of_list_to_set, elem_of_seq. lia.
Qed.

Lemma at_prefix_S m (V : gset nat) :
  V = list_to_set (seq 0 m) → {[m]} ∪ V = list_to_set (seq 0 (S m)).
Proof.
  intros ->. rewrite seq_S, list_to_set_app_L. simpl. set_solver.
Qed.

(** A loop over positions that are visited or do not touch [shape]
    changes nothing but the log. *)
Lemma dfs_loop_idle rec src shape items (st : state) :
  (∀ j r, (j, r) ∈ items → j ∈ visited st ∨ touching shape r = Return false) →
  ∃ st', dfs_loop distance (Some rec) src shape items st = (st', Done) ∧
    visited st' = visited st ∧ group st' = group st ∧ groups st' = groups st.
Proof.
  revert st. induction items as [|[j r] rest IH]; intros st Hall.
  - by exists st.
  - assert (Hrest : ∀ st' : state, visited st' = visited st →
      ∀ j' r', (j', r') ∈ rest → j' ∈ visited st' ∨ touching shape r' = Return false).
    { intros st' -> j' r' H. apply Hall. by right. }
    destruct (decide (j ∈ visited st)) as [Hj|Hj].
    + rewrite dfs_loop_skip by done. by apply IH, Hrest.
    + destruct (Hall j r) as [?|Ht]; [by left|done|].
      rewrite dfs_loop_far by done.
      destruct (IH (log_query src j st)) as (st' & -> & ? & ? & ?); [by apply Hrest|].
      by exists st'.
Qed.

Lemma main_loop_idle shapes room items (st : state) :
  (∀ j r, (j, r) ∈ items → j ∈ visited st) →
  main_loop distance shapes room items st = (st, Done).
Proof.
  induction items as [|[j r] rest IH]; intros Hall; [done|].
  rewrite main_loop_skip by (apply (Hall j r); by left).
  apply IH. intros j' r' H. apply (Hall j' r'). by right.
Qed.

Lemma dfs_loop_prefix (ys : list Shape) rec src shape k m (st : state) :
  k ≤ m → m ≤ length ys → at_prefix m st →
  dfs_loop distance rec src shape (enumerate k (drop k ys)) st
  = dfs_loop distance rec src shape (enumerate m (drop m ys)) st.
Proof.
  intros Hk Hm Hpre. remember (m - k) as d eqn:Hd. revert k Hk Hd.
  induction d as [|d IH]; intros k Hk Hd.
  - by replace k with m by lia.
  - rewrite <-(IH (S k)) by lia.
    destruct (lookup_lt_is_Some_2 ys k) as [y Hy]; [lia|].
    rewrite (drop_S _ _ _ Hy). simpl.
    rewrite decide_True; [done|]. apply (at_prefix_elem _ _ _ Hpre). lia.
Qed.

Lemma main_loop_prefix (ys : list Shape) room k m (st : state) :
  k ≤ m → m ≤ length ys → at_prefix m st →
  main_loop distance ys room (enumerate k (drop k ys)) st
  = main_loop distance ys room (enumerate m (drop m ys)) st.
Proof.
  intros Hk Hm Hpre. remember (m - k) as d eqn:Hd. revert k Hk Hd.
  induction d as [|d IH]; intros k Hk Hd.
  - by replace k with m by lia.
  - rewrite <-(IH (S k)) by lia.
    destruct (lookup_lt_is_Some_2 ys k) as [y Hy]; [lia|].
    rewrite (drop_S _ _ _ Hy). simpl.
    rewrite decide_True; [done|]. apply (at_prefix_elem _ _ _ Hpre). lia.
Qed.

(** ** A chain that is too long *)

(** With the positions up to [k] visited, the input a chain, and less
    room than shapes after [k], [dfs] for the shape at [k] raises
    [RecursionError]. *)
Lemma dfs_chained_overflow (shapes : list Shape) room : ∀ k x (st : state),
  chained distance shapes → shapes !! k = Some x → at_prefix (S k) st →
  room + S k < length shapes →
  ∃ st', dfs distance shapes room k x st = (st', Raised RecursionError).
Proof.
  induction room as [|room IH]; intros k x st Hch Hx Hpre Hroom.
  - destruct (lookup_lt_is_Some_2 shapes (S k)) as [y Hy]; [lia|].
    exists st. rewrite dfs_O, dfs_loop_None, decide_False; [done|].
    intros Hall.
    assert (Hin : (S k, y).1 ∈ visited st).
    { apply (proj1 (Forall_forall _ _) Hall (S k, y)).
      apply elem_of_enumerate. split; [lia|]. by rewrite Nat.sub_0_r. }
    simpl in Hin. rewrite (at_prefix_elem _ _ _ Hpre) in Hin. lia.
  - pose proof (lookup_lt_Some _ _ _ Hx) as Hk. rewrite dfs_S.
    change (enumerate 0 shapes) with (enumerate 0 (drop 0 shapes)).
    rewrite (dfs_loop_prefix shapes _ _ _ 0 (S k)) by (done || lia).
    destruct (lookup_lt_is_Some_2 shapes (S k)) as [y Hy]; [lia|].
    rewrite (drop_S _ _ _ Hy). cbn [enumerate].
    rewrite dfs_loop_near;
      [|rewrite (at_prefix_elem _ _ _ Hpre); lia|by apply (Hch k)].
    destruct (IH (S k) y (visit (S k) y (log_query k (S k) st))) as [st' ->];
      [done|done|by apply at_prefix_S|lia|].
    by exists st'.
Qed.

(** A chain of more than [limit + 1] shapes is too long for the
    stack. *)
Lemma chained_overflow limit (shapes : list Shape) :
  chained distance shapes → S limit < length shapes →
  group_touching_shapes distance limit shapes = Raise RecursionError.
Proof.
  intros Hch Hlen. unfold group_touching_shapes, run.
  destruct shapes as [|x l] eqn:Hs; [simpl in Hlen; lia|]. rewrite <-Hs in *.
  assert (He : enumerate 0 shapes = (0, x) :: enumerate 1 l) by (by rewrite Hs).
  rewrite He, main_loop_seed by (simpl; set_solver).
  destruct (dfs_chained_overflow shapes limit 0 x (seed 0 x init)) as [st' ->];
    [done|by rewrite Hs| |lia|done].
  unfold at_prefix. simpl. by apply at_prefix_S.
Qed.

Section Rerun.

(** [xs] is the input of a first run, [ys] that of a second run. *)
Variables xs ys : list Shape.

(** The shapes [restv] are at positions of [xs] not visited in [st]. *)
Definition unseen (st : state) (restv : list Shape) : Prop :=
  ∀ r, r ∈ restv → ∃ j, xs !! j = Some r ∧ j ∉ visited st.

(** The outcome [r] of a piece of the second run, started in [stτ] with
    the positions below [m] visited: it completes, having appended the
    shapes [vs], found at the next positions of [ys]. *)
Definition replay (r : state * status) (m : nat) (stτ : state)
    (vs : list Shape) : Prop :=
  ∃ stτ', r = (stτ', Done) ∧ at_prefix (m + length vs) stτ' ∧
    group stτ' = group stτ ++ vs ∧ groups stτ' = groups stτ.

Lemma unseen_mono st st' restv :
  visited st ⊆ visited st' → unseen st' restv → unseen st restv.
Proof.
  intros Hsub H r (j & Hj & Hv)%H. exists j. split; [done|]. set_solver.
Qed.

Lemma grows_unseen st st' ds vs qs :
  grows xs st st' ds vs qs → unseen st vs.
Proof.
  intros G r [k Hk]%list_elem_of_lookup.
  destruct (Forall2_lookup_r _ _ _ _ _ (grows_shapes _ _ _ _ _ _ G) Hk) as (j & Hj & Hs).
  exists j. split; [done|]. apply (grows_fresh _ _ _ _ _ _ G).
  by eapply list_elem_of_lookup_2.
Qed.

Lemma unseen_app st l1 l2 : unseen st l1 → unseen st l2 → unseen st (l1 ++ l2).
Proof. intros H1 H2 r [?|?]%elem_of_app; auto. Qed.

(** After a complete [dfs] for the shape [o] at [i], the shapes left
    unvisited do not touch [o]. *)
Lemma closed_unseen i o st' ds restv :
  xs !! i = Some o → dfacts xs i (enumerate 0 xs) st' Done ds →
  unseen st' restv →
  ∀ r, r ∈ restv → touching o r = Return false.
Proof.
  intros Ho D Hun r (j & Hj & Hv)%Hun.
  pose proof (df_closed_src _ _ _ _ _ _ D eq_refl j) as Hc.
  rewrite (asked_Some _ _ _ _ _ Ho Hj) in Hc.
  assert (Some (touching o r) = Some (Return false)) as [= ->]; [|done].
  apply Hc; [|done]. apply fst_items0. by eapply lookup_lt_Some.
Qed.

(** A complete [dfs] of the first run is repeated by the second run, when
    the shapes it appended come next in [ys], followed by shapes that the
    first run left unvisited. *)
Lemma rerun_dfs f :
  (∀ src shape st st',
     dfs distance xs f src shape st = (st', Done) →
     src ∈ visited st → xs !! src = Some shape →
     ∃ ds vs qs, grows xs st st' ds vs qs ∧
       ∀ srcτ m stτ restv,
         m ≤ length ys → at_prefix m stτ → drop m ys = vs ++ restv →
         (∀ r, r ∈ restv → touching shape r = Return false) →
         unseen st' restv →
         replay (dfs distance ys f srcτ shape stτ) m stτ vs) ∧
  (∀ src shape items st st',
     dfs_loop distance (Some (dfs distance xs f)) src shape items st = (st', Done) →
     items_ok xs items → src ∈ visited st → xs !! src = Some shape →
     ∃ ds vs qs, grows xs st st' ds vs qs ∧
       ∀ srcτ k m stτ restv,
         k ≤ m → m ≤ length ys → at_prefix m stτ → drop m ys = vs ++ restv →
         (∀ r, r ∈ restv → touching shape r = Return false) →
         unseen st' restv →
         replay (dfs_loop distance (Some (dfs distance ys f)) srcτ shape
                   (enumerate k (drop k ys)) stτ) m stτ vs).
Proof.
  pose (P := λ (f src : nat) (shape : Shape) (st : state) (r : state * status),
    r.2 = Done → src ∈ visited st → xs !! src = Some shape →
    ∃ ds vs qs, grows xs st r.1 ds vs qs ∧
      ∀ srcτ m stτ restv,
        m ≤ length ys → at_prefix m stτ → drop m ys = vs ++ restv →
        (∀ r, r ∈ restv → touching shape r = Return false) →
        unseen r.1 restv →
        replay (dfs distance ys f srcτ shape stτ) m stτ vs).
  pose (Q := λ (f src : nat) (shape : Shape) (items : list (nat * Shape))
             (st : state) (r : state * status),
    r.2 = Done → items_ok xs items → src ∈ visited st → xs !! src = Some shape →
    ∃ ds vs qs, grows xs st r.1 ds vs qs ∧
      ∀ srcτ k m stτ restv,
        k ≤ m → m ≤ length ys → at_prefix m stτ → drop m ys = vs ++ restv →
        (∀ r, r ∈ restv → touching shape r = Return false) →
        unseen r.1 restv →
        replay (dfs_loop distance (Some (dfs distance ys f)) srcτ shape
                  (enumerate k (drop k ys)) stτ) m stτ vs).
  destruct (dfs_run_ind xs P Q) with (f := f) as [HP HQ]; unfold P, Q in *;
    simpl; clear P Q.
  - intros src shape st Hall _ Hsrc Hs. exists [], [], []. split; [apply grows_refl|].
    intros srcτ m stτ restv Hm Hpre Hdrop _ Hb. simpl in Hdrop.
    destruct restv as [|r restv].
    + apply drop_nil_inv in Hdrop.
      rewrite ?dfs_O, dfs_loop_None, decide_True.
      * exists stτ. split_and!; [done| |by rewrite app_nil_r|done].
        by rewrite Nat.add_0_r.
      * apply Forall_forall. intros [j o] [_ Hj]%elem_of_enumerate. simpl.
        apply (at_prefix_elem _ _ _ Hpre). apply lookup_lt_Some in Hj. lia.
    + destruct (Hb r) as (j & Hj & Hv); [by left|]. destruct Hv.
      apply (proj1 (Forall_forall _ _) Hall (j, r)).
      apply elem_of_enumerate. split; [lia|]. by rewrite Nat.sub_0_r.
  - done.
  - intros f' src shape st r IH Hr Hsrc Hs.
    destruct (IH Hr (items_ok_enumerate xs) Hsrc Hs) as (ds & vs & qs & G & R).
    exists ds, vs, qs. split; [done|].
    intros srcτ m stτ restv Hm Hpre Hdrop Ha Hb.
    apply (R srcτ 0 m stτ restv); [lia|done..].
  - intros f' src shape st _ _ Hsrc Hs. exists [], [], []. split; [apply grows_refl|].
    intros srcτ k m stτ restv Hk Hm Hpre Hdrop Ha Hb. simpl in Hdrop.
    rewrite (dfs_loop_prefix ys _ _ _ k m) by done.
    destruct (dfs_loop_idle (dfs distance ys f') srcτ shape
                (enumerate m (drop m ys)) stτ) as (stτ' & Heq & Hv & Hg & Hgs).
    { intros j r [_ Hj]%elem_of_enumerate. right. apply Ha. rewrite <-Hdrop.
      by eapply list_elem_of_lookup_2. }
    exists stτ'. split_and!; [done| |by rewrite Hg, app_nil_r|done].
    unfold at_prefix. rewrite Hv. simpl. by rewrite Nat.add_0_r.
  - intros f' src shape i o rest st r Hin IH Hr [_ Hok]%items_ok_cons Hsrc Hs.
    by apply IH.
  - done.
  - intros f' src shape i o rest st r Hin Ht IH Hr [_ Hok]%items_ok_cons Hsrc Hs.
    destruct (IH Hr Hok Hsrc Hs) as (ds & vs & qs & G & R).
    exists ds, vs, (Query src i (visited st) :: qs). split; [by apply grows_far|done].
  - intros f' src shape i o rest st st1 r Hin Ht Hd IHP IHQ Hr [Ho Hok]%items_ok_cons
      Hsrc Hs.
    assert (Hiv : i ∈ visited (visit i o (log_query src i st))) by (simpl; set_solver).
    destruct (IHP eq_refl Hiv Ho) as (ds1 & vs1 & qs1 & G1 & R1). simpl in G1, R1.
    destruct (proj1 (dfs_done xs f') i o _ _ _ Hiv Ho Hd) as (ds1' & vs1' & qs1' & G1' & D1).
    destruct (grows_inj _ _ _ _ _ _ _ _ _ G1 G1') as (<- & <- & <-). clear G1'.
    assert (Hsrc1 : src ∈ visited st1).
    { apply (grows_mono _ _ _ _ _ _ G1). simpl. set_solver. }
    destruct (IHQ Hr Hok Hsrc1 Hs) as (ds2 & vs2 & qs2 & G2 & R2).
    exists (i :: ds1 ++ ds2), (o :: vs1 ++ vs2), (Query src i (visited st) :: qs1 ++ qs2).
    split; [apply grows_near; [done..|]; by eapply grows_trans|].
    intros srcτ k m stτ restv Hk Hm Hpre Hdrop Ha Hb.
    rewrite (dfs_loop_prefix ys _ _ _ k m) by done.
    simpl in Hdrop. rewrite <-app_assoc in Hdrop.
    destruct (drop_cons_inv _ _ _ _ Hdrop) as (Hy & Hdrop1 & Hlt).
    rewrite Hdrop. cbn [enumerate].
    rewrite dfs_loop_near;
      [|by rewrite (at_prefix_elem _ _ _ Hpre); lia|done].
    assert (Hun : unseen st1 (vs2 ++ restv)).
    { apply unseen_app; [by eapply grows_unseen|].
      eapply unseen_mono; [|exact Hb]. by eapply grows_mono. }
    destruct (R1 m (S m) (visit m o (log_query srcτ m stτ)) (vs2 ++ restv))
      as (stτ1 & -> & Hpre1 & Hg1 & Hgs1);
      [lia|by apply at_prefix_S|done|by eapply closed_unseen|done|].
    destruct (drop_app_inv ys (S m) vs1 (vs2 ++ restv)) as [Hdrop2 Hle2]; [lia|done|].
    rewrite <-Hdrop1.
    destruct (R2 srcτ (S m) (S m + length vs1) stτ1 restv)
      as (stτ2 & -> & Hpre2 & Hg2 & Hgs2); [lia|done|done|done|done|done|].
    exists stτ2. split_and!; [done| | |].
    + unfold at_prefix in *. rewrite Hpre2. do 2 f_equal.
      simpl. rewrite length_app. lia.
    + rewrite Hg2, Hg1. simpl. by rewrite <-!app_assoc.
    + by rewrite Hgs2, Hgs1.
  - by intros f' src shape i o rest st st1 s Hin Ht Hd Hne IHP ->.
  - split.
    + intros src shape st st' Hd Hsrc Hs. specialize (HP src shape st).
      rewrite Hd in HP. by apply HP.
    + intros src shape items st st' Hd Hok Hsrc Hs.
      specialize (HQ src shape items st). rewrite Hd in HQ. by apply HQ.
Qed.

Lemma shapes_at_unseen st newcs newgs :
  shapes_at xs newcs newgs →
  (∀ j, j ∈ concat newcs → j ∉ visited st) →
  unseen st (concat newgs).
Proof.
  intros Hat Hfresh r (g & [m Hm]%list_elem_of_lookup & [k Hk]%list_elem_of_lookup)%elem_of_concat.
  destruct (Forall2_lookup_r _ _ _ _ _ Hat Hm) as (c & Hc & Hcg).
  destruct (Forall2_lookup_r _ _ _ _ _ Hcg Hk) as (j & Hj & Hs).
  exists j. split; [done|]. apply Hfresh, elem_of_concat.
  exists c. split; by eapply list_elem_of_lookup_2.
Qed.

(** A complete run of the outer loop is repeated by the second run, when
    the groups it appended, flattened, come next in [ys]. *)
Lemma rerun_main room items : ∀ st st',
  main_loop distance xs room items st = (st', Done) →
  items_ok xs items →
  ∃ newcs newgs,
    groups st' = groups st ++ newgs ∧ shapes_at xs newcs newgs ∧
    (∀ j, j ∈ concat newcs → j ∉ visited st) ∧
    ∀ k m stτ,
      k ≤ m → m ≤ length ys → at_prefix m stτ → drop m ys = concat newgs →
      ∃ stτ', main_loop distance ys room (enumerate k (drop k ys)) stτ = (stτ', Done) ∧
        groups stτ' = groups stτ ++ newgs.
Proof.
  induction items as [|[i x] rest IH]; intros st st' Hrun Hok.
  - injection Hrun as <-. exists [], []. split_and!.
    + by rewrite app_nil_r.
    + constructor.
    + by intros j ?%elem_of_nil.
    + intros k m stτ Hk Hm Hpre Hdrop. exists stτ. rewrite app_nil_r. split; [|done].
      apply main_loop_idle. intros j r [_ Hj]%elem_of_enumerate.
      apply (at_prefix_elem _ _ _ Hpre). apply drop_nil_inv in Hdrop.
      apply lookup_lt_Some in Hj. rewrite length_drop in Hj. lia.
  - apply items_ok_cons in Hok as [Hx Hok]. simpl in Hrun.
    destruct (decide (i ∈ visited st)) as [Hi|Hi]; [by apply IH|].
    destruct (dfs distance xs room i x (seed i x st)) as [st1 s1] eqn:Hd.
    destruct s1; [|done..].
    assert (Hiv : i ∈ visited (seed i x st)) by (simpl; set_solver).
    destruct (proj1 (rerun_dfs room) i x _ _ Hd Hiv Hx) as (ds1 & vs1 & qs1 & G1 & R1).
    destruct (proj1 (dfs_done xs room) i x _ _ _ Hiv Hx Hd) as (ds1' & vs1' & qs1' & G1' & D1).
    destruct (grows_inj _ _ _ _ _ _ _ _ _ G1 G1') as (<- & <- & <-). clear G1'.
    destruct (IH _ _ Hrun Hok) as (newcs & newgs & Hgs & Hat & Hfresh & R).
    simpl in Hgs, Hfresh.
    pose proof (grows_visited _ _ _ _ _ _ G1) as Hv1. simpl in Hv1.
    exists ((i :: ds1) :: newcs), ((x :: vs1) :: newgs). split_and!.
    + rewrite Hgs, (grows_groups _ _ _ _ _ _ G1), (grows_group _ _ _ _ _ _ G1).
      simpl. by rewrite <-app_assoc.
    + constructor; [|done]. constructor; [done|].
      apply (grows_shapes _ _ _ _ _ _ G1).
    + simpl. intros j [->|[Hj|Hj]%elem_of_app]%elem_of_cons; [done| |].
      * apply (grows_fresh _ _ _ _ _ _ G1) in Hj. simpl in Hj. clear -Hj. set_solver.
      * apply Hfresh in Hj. rewrite Hv1 in Hj. clear -Hj. set_solver.
    + intros k m stτ Hk Hm Hpre Hdrop. simpl in Hdrop.
      rewrite (main_loop_prefix ys _ k m) by done.
      destruct (drop_cons_inv _ _ _ _ Hdrop) as (Hy & Hdrop1 & Hlt).
      rewrite Hdrop. cbn [enumerate].
      rewrite main_loop_seed by (rewrite (at_prefix_elem _ _ _ Hpre); lia).
      assert (Hun : unseen st1 (concat newgs))
        by (by apply (shapes_at_unseen st1 newcs)).
      destruct (R1 m (S m) (seed m x stτ) (concat newgs))
        as (stτ1 & -> & Hpre1 & Hg1 & Hgs1);
        [lia|by apply at_prefix_S|done|by eapply closed_unseen|done|].
      destruct (drop_app_inv ys (S m) vs1 (concat newgs)) as [Hdrop2 Hle2]; [lia|done|].
      rewrite <-Hdrop1.
      destruct (R (S m) (S m + length vs1) (close_group stτ1))
        as (stτ2 & -> & Hgs2); [lia|done|done|done|].
      exists stτ2. split; [done|]. rewrite Hgs2. simpl.
      rewrite Hgs1, Hg1. simpl. by rewrite <-app_assoc.
Qed.

End Rerun.

(** ** The partition *)

Section Claims.

Variable limit : nat.

Variable shapes : list Shape.

Local Abbreviation cs := (cluster_positions distance limit shapes).
Local Abbreviation result := (group_touching_shapes distance limit shapes).

Lemma filter_none {A} (P : A → Prop) `{∀ x, Decision (P x)} (l : list A) :
  (∀ x, x ∈ l → ¬ P x) → filter P l = [].
Proof.
  induction l as [|x l IH]; intros Hl; [done|].
  rewrite filter_cons_False by (apply Hl; by left).
  apply IH. intros y Hy. apply Hl. by right.
Qed.

Lemma filter_all {A} (P : A → Prop) `{∀ x, Decision (P x)} (l : list A) :
  (∀ x, x ∈ l → P x) → filter P l = l.
Proof.
  induction l as [|x l IH]; intros Hl; [done|].
  rewrite filter_cons_True by (apply Hl; by left).
  f_equal. apply IH. intros y Hy. apply Hl. by right.
Qed.

Lemma filter_concat_pick {A} (P : A → Prop) `{∀ x, Decision (P x)}
    (ls : list (list A)) m l :
  ls !! m = Some l →
  (∀ x, x ∈ l → P x) →
  (∀ m' l' x, m' ≠ m → ls !! m' = Some l' → x ∈ l' → ¬ P x) →
  filter P (concat ls) = l.
Proof.
  revert m. induction ls as [|l0 ls IH]; intros m Hm Hin Hout; [done|].
  simpl. rewrite filter_app. destruct m as [|m]; simpl in Hm.
  - injection Hm as ->.
    assert (filter P (concat ls) = []) as ->.
    { apply filter_none. intros x (l' & Hl' & Hx)%elem_of_concat.
      apply list_elem_of_lookup in Hl' as [m' Hm'].
      by apply (Hout (S m') l' x). }
    rewrite app_nil_r. by apply filter_all.
  - assert (filter P l0 = []) as ->.
    { apply filter_none. intros x Hx. by apply (Hout 0 l0 x). }
    simpl. apply (IH m); [done|done|].
    intros m' l' x Hne. apply (Hout (S m') l' x). lia.
Qed.

Lemma result_Return_run gs :
  result = Return gs → ∃ st, run distance limit shapes = (st, Done) ∧ groups st = gs ∧
    clusters st = cs ∧ queries st = oracle_log distance limit shapes.
Proof.
  intros (st & Hr & <-)%group_touching_shapes_Return. exists st.
  unfold cluster_positions, oracle_log. by rewrite Hr.
Qed.

(** On a successful run, every member of a cluster is reached from its
    first member by a chain of members, each at distance [0.0] from the
    one before. *)
Lemma clusters_reached gs c :
  result = Return gs → c ∈ cs →
  ∃ sd, head c = Some sd ∧ ∀ b, b ∈ c → rtc (step distance shapes c) sd b.
Proof.
  intros (st & Hr & _ & <- & _)%result_Return_run [m Hm]%list_elem_of_lookup.
  destruct (mi_cluster _ _ _ (run_done _ _ _ Hr) m c Hm) as (sd & ds & -> & _ & Hch & _).
  exists sd. split; [done|].
  intros x [->|Hx]%elem_of_cons; [done|].
  eapply rtc_subrel; [|by apply Hch]. intros ??. apply edge_step.
Qed.

(** So any two members of a cluster are joined by a chain of members at
    distance [0.0] from one to the next, in one order or the other. *)
Lemma clusters_connected gs c a b :
  result = Return gs → c ∈ cs → a ∈ c → b ∈ c → rtc (link distance shapes c) a b.
Proof.
  intros Hres Hc Ha Hb.
  destruct (clusters_reached gs c Hres Hc) as (sd & _ & Hsd).
  assert (Hl : ∀ x, x ∈ c → rtc (link distance shapes c) sd x).
  { intros x Hx. eapply rtc_subrel; [|by apply Hsd]. intros ??. apply step_link. }
  assert (Symmetric (link distance shapes c)).
  { intros x y (?&?&[?|?]); split_and!; auto. }
  etrans; [symmetry; by apply Hl|by apply Hl].
Qed.

(** For an oracle that is symmetric on the input, the chain goes by
    touching steps. *)
Lemma clusters_connected_sym gs c a b :
  symmetric distance shapes →
  result = Return gs → c ∈ cs → a ∈ c → b ∈ c → rtc (step distance shapes c) a b.
Proof.
  intros Hsym Hres Hc Ha Hb.
  eapply rtc_subrel; [|by apply (clusters_connected gs c)].
  intros x y (Hx & Hy & [H|H]); split_and!; auto.
Qed.

(** On a successful run, a position at distance [0.0] from a member of a
    cluster is in that cluster or in one closed before it. *)
Lemma touching_not_later gs m c i j :
  result = Return gs → cs !! m = Some c → i ∈ c → touches distance shapes i j →
  ∃ m' c', m' ≤ m ∧ cs !! m' = Some c' ∧ j ∈ c'.
Proof.
  intros (st & Hr & _ & <- & _)%result_Return_run Hm Hi Ht.
  destruct (mi_cluster _ _ _ (run_done _ _ _ Hr) m c Hm) as (sd & ds & Hc & _ & _ & Hcl).
  assert (Hj : j < length shapes).
  { destruct Ht as (a & b & d & _ & Hb & _). by eapply lookup_lt_Some. }
  destruct (decide (j ∈ c)) as [Hjc|Hjc]; [by exists m, c|].
  destruct (decide (j ∈ concat (take m (clusters st)))) as [Hje|Hje].
  - apply elem_of_concat_take in Hje as (m' & c' & Hlt & Hm' & Hjc').
    exists m', c'. split_and!; [lia|done..].
  - by destruct (asked_false _ _ _ (Hcl i j Hi Hj Hje Hjc)).
Qed.

Lemma touching_same_cluster gs i j :
  result = Return gs → touches distance shapes i j → touches distance shapes j i →
  ∃ c, c ∈ cs ∧ i ∈ c ∧ j ∈ c.
Proof.
  intros Hres Hij Hji.
  destruct (result_Return_run _ Hres) as (st & Hr & _ & Hcs & _).
  pose proof (run_done _ _ _ Hr) as I.
  assert (Hi : i ∈ concat cs).
  { rewrite <-Hcs. apply (elem_of_list_to_set (C:=gset nat)).
    rewrite <-(mi_visited _ _ _ I).
    apply (mi_before _ _ _ I). destruct Hij as (a & b & d & Ha & _). by eapply lookup_lt_Some. }
  apply elem_of_concat in Hi as (c & [m Hm]%list_elem_of_lookup & Hi).
  destruct (touching_not_later _ _ _ _ _ Hres Hm Hi Hij) as (m' & c' & Hle & Hm' & Hj).
  destruct (touching_not_later _ _ _ _ _ Hres Hm' Hj Hji) as (m'' & c'' & Hle' & Hm'' & Hi').
  assert (m = m'') as <-.
  { eapply NoDup_concat_lookup; [|exact Hm|exact Hm''|done..].
    rewrite <-Hcs. apply (mi_nodup _ _ _ I). }
  assert (m' = m) as -> by lia.
  exists c. split_and!; [by eapply list_elem_of_lookup_2|done|congruence].
Qed.

(** The oracle calls of any run, complete or not: the first argument
    is a visited position, the second is not; no ordered pair of
    positions is asked twice. *)
Lemma calls_visited q :
  q ∈ oracle_log distance limit shapes →
  q_src q ∈ q_visited q ∧ (q_dst q ∉ q_visited q) ∧
  q_src q < length shapes ∧ q_dst q < length shapes.
Proof.
  intros Hq. pose proof (run_queries limit shapes) as I. unfold oracle_log in Hq.
  split_and!.
  - by apply (qi_src _ _ _ I).
  - by apply (qi_dst _ _ _ I).
  - by apply (qi_within _ _ _ I), (qi_seen _ _ _ I).
  - by apply (qi_range _ _ _ I).
Qed.

Lemma calls_nodup : NoDup (oracle_calls distance limit shapes).
Proof. apply (qi_nodup _ _ _ (run_queries limit shapes)). Qed.

Lemma calls_off_diagonal i j :
  (i, j) ∈ oracle_calls distance limit shapes →
  i < length shapes ∧ j < length shapes ∧ i ≠ j.
Proof.
  intros (q & [= -> ->] & Hq)%list_elem_of_fmap.
  destruct (calls_visited q Hq) as (H1 & H2 & H3 & H4).
  split_and!; [done..|]. intros Heq. apply H2. by rewrite <-Heq.
Qed.

(** A failure of the oracle on a queried pair ends the run with
    [RuntimeError]. *)
Lemma failure_raises q :
  q ∈ oracle_log distance limit shapes → fails_at distance shapes (q_src q) (q_dst q) →
  result = Raise (RuntimeError "Distance computation failed.").
Proof.
  intros Hq (a & b & Ha & Hb & Hd).
  pose proof (run_queries limit shapes) as I.
  assert (Hno : ¬ answered (run distance limit shapes).2).
  { intros Hans. destruct (qi_done _ _ _ I Hans q Hq) as [t Ht].
    rewrite (asked_Some _ _ _ _ _ Ha Hb) in Ht.
    unfold are_shapes_touching in Ht. by rewrite Hd in Ht. }
  unfold group_touching_shapes, oracle_log in *.
  destruct (run distance limit shapes) as [st [|[msg|]]]; simpl in *.
  - by destruct Hno.
  - by destruct (qi_raised _ _ _ I msg eq_refl) as [-> _].
  - by destruct Hno.
Qed.

(** A raised exception is the [RuntimeError] of [are_shapes_touching],
    and then the last oracle call is one that failed; or it is the
    [RecursionError] of the interpreter, and then no oracle call failed
    and the input has more than [limit + 1] shapes. *)
Lemma raises_failure e :
  result = Raise e →
  (e = RuntimeError "Distance computation failed." ∧
   ∃ q, last (oracle_log distance limit shapes) = Some q ∧
     fails_at distance shapes (q_src q) (q_dst q)) ∨
  (e = RecursionError ∧ S limit < length shapes ∧
   ∀ q, q ∈ oracle_log distance limit shapes →
     ¬ fails_at distance shapes (q_src q) (q_dst q)).
Proof.
  pose proof (run_queries limit shapes) as I.
  pose proof (run_room limit shapes) as Hroom.
  unfold group_touching_shapes, oracle_log in *.
  destruct (run distance limit shapes) as [st [|[msg|]]]; simpl in *; [done| |].
  - intros [= <-]. left.
    destruct (qi_raised _ _ _ I msg eq_refl) as (-> & H). by split.
  - intros [= <-]. right. split_and!; [done| |].
    + apply Nat.nle_gt. intros H. by apply Hroom.
    + intros q Hq (a & b & Ha & Hb & Hd).
      destruct (qi_done _ _ _ I answered_overflow q Hq) as [t Ht].
      rewrite (asked_Some _ _ _ _ _ Ha Hb) in Ht.
      unfold are_shapes_touching in Ht. by rewrite Hd in Ht.
Qed.

(** On a successful run, the seed of a cluster is the least position
    outside the clusters closed before it, and the other members are the
    positions found by the oracle calls made from members of the cluster,
    in the order of the calls. *)
Lemma cluster_order gs m c :
  result = Return gs → cs !! m = Some c →
  ∃ sd ds, c = sd :: ds ∧
    (sd ∉ concat (take m cs)) ∧
    (∀ j, j < sd → j ∈ concat (take m cs)) ∧
    ds = found distance shapes (filter (λ q, q_src q ∈ c) (oracle_log distance limit shapes)).
Proof.
  intros (st & Hr & _ & <- & <-)%result_Return_run Hm.
  pose proof (run_done _ _ _ Hr) as I.
  destruct (mi_cluster _ _ _ I m c Hm) as (sd & ds & -> & Hlt & _ & _).
  exists sd, ds. split_and!; [done| |done|].
  - intros (m' & c' & Hlt' & Hm' & Hsd)%elem_of_concat_take.
    assert (m' = m); [|lia].
    eapply NoDup_concat_lookup; [apply (mi_nodup _ _ _ I)|exact Hm'|exact Hm|done|by left].
  - destruct (mi_queries _ _ _ I) as (qss & -> & Hqs).
    destruct (Forall2_lookup_l _ _ _ _ _ Hqs Hm) as (qs & Hqm & Hds & Hsrc).
    simpl in Hds.
    rewrite (filter_concat_pick (λ q, q_src q ∈ sd :: ds) qss m qs Hqm Hsrc); [done|].
    intros m' qs' q Hne Hqm' Hq Hin.
    destruct (Forall2_lookup_r _ _ _ _ _ Hqs Hqm') as (c' & Hm' & _ & Hsrc').
    apply Hne. eapply NoDup_concat_lookup;
      [apply (mi_nodup _ _ _ I)|exact Hm'|exact Hm|by apply Hsrc'|done].
Qed.

(** When the oracle never fails on an input of at most [limit + 1]
    shapes, the run succeeds. *)
Lemma returns :
  never_fails distance limit shapes → length shapes ≤ S limit →
  ∃ gs, result = Return gs.
Proof.
  intros Hnf Hroom. destruct (never_fails_Return _ _ Hnf Hroom) as [st Hr].
  exists (groups st). apply group_touching_shapes_Return. by exists st.
Qed.

(** When the oracle never fails, the run succeeds or raises
    [RecursionError], and this only on an input of more than
    [limit + 1] shapes. *)
Lemma never_fails_overflow e :
  never_fails distance limit shapes → result = Raise e →
  e = RecursionError ∧ S limit < length shapes.
Proof.
  intros Hnf [(_ & q & Hl & Hq)|(-> & H & _)]%raises_failure; [|done].
  destruct (Hnf q); [|done]. by apply last_Some_elem_of.
Qed.

(** The clusters of a successful run, as lists of positions, partition
    the positions of the input. *)
Lemma clusters_partition gs :
  result = Return gs →
  shapes_at shapes cs gs ∧
  (∀ c, c ∈ cs → c ≠ []) ∧
  (∀ m1 m2 c1 c2 i,
      cs !! m1 = Some c1 → cs !! m2 = Some c2 → i ∈ c1 → i ∈ c2 → m1 = m2) ∧
  NoDup (concat cs) ∧
  (∀ i, i < length shapes ↔ ∃ c, c ∈ cs ∧ i ∈ c).
Proof.
  intros Hres. destruct (result_Return_run _ Hres) as (st & Hr & <- & _ & _).
  pose proof (cluster_positions_result _ _ _ Hres) as Hat.
  pose proof (run_done _ _ _ Hr) as I.
  unfold cluster_positions in *. rewrite Hr in *. simpl in *.
  split_and!; try done.
  - intros c [m Hm]%list_elem_of_lookup.
    by destruct (mi_cluster _ _ _ I m c Hm) as (sd & ds & -> & _).
  - intros m1 m2 c1 c2 i. apply NoDup_concat_lookup, (mi_nodup _ _ _ I).
  - apply (mi_nodup _ _ _ I).
  - intros i. rewrite <-elem_of_concat. split.
    + intros Hi%(mi_before _ _ _ I). rewrite (mi_visited _ _ _ I) in Hi.
      by apply elem_of_list_to_set in Hi.
    + intros (c & Hc & Hi)%elem_of_concat.
      apply list_elem_of_lookup in Hc as [m Hm], Hi as [k Hk].
      destruct (Forall2_lookup_l _ _ _ _ _ Hat Hm) as (g & _ & Hg).
      destruct (Forall2_lookup_l _ _ _ _ _ Hg Hk) as (s & _ & Hs).
      by eapply lookup_lt_Some.
Qed.


Lemma Forall2_concat_length {A B} (R : A → B → Prop) ls ks :
  Forall2 (Forall2 R) ls ks → length (concat ls) = length (concat ks).
Proof.
  induction 1 as [|l k ls ks Hlk _ IH]; [done|].
  simpl. rewrite !length_app, IH. f_equal. by eapply Forall2_length.
Qed.

(** A successful run returns as many shapes as it was given. *)
Lemma result_length gs :
  result = Return gs → length (concat gs) = length shapes.
Proof.
  intros Hres. pose proof (cluster_positions_result _ _ _ Hres) as Hat.
  destruct (result_Return_run _ Hres) as (st & Hr & _ & Hcs & _).
  pose proof (run_done _ _ _ Hr) as I. rewrite <-Hcs in Hat.
  rewrite <-(Forall2_concat_length _ _ _ Hat), <-(length_seq (length shapes) 0).
  apply Permutation_length, NoDup_Permutation.
  - apply (mi_nodup _ _ _ I).
  - apply NoDup_seq.
  - intros j. rewrite elem_of_seq. split.
    + intros (c & [m Hm]%list_elem_of_lookup & [k Hk]%list_elem_of_lookup)%elem_of_concat.
      destruct (Forall2_lookup_l _ _ _ _ _ Hat Hm) as (g & _ & Hg).
      destruct (Forall2_lookup_l _ _ _ _ _ Hg Hk) as (s & _ & Hs).
      apply lookup_lt_Some in Hs. lia.
    + intros [_ Hj]. simpl in Hj. apply (mi_before _ _ _ I) in Hj.
      rewrite (mi_visited _ _ _ I) in Hj. by apply elem_of_list_to_set in Hj.
Qed.

(** Clustering the concatenation of the clusters of a successful run
    gives the same clusters again. *)
Lemma rerun_same gs :
  result = Return gs →
  group_touching_shapes distance limit (concat gs) = Return gs.
Proof.
  intros Hres.
  destruct (result_Return_run _ Hres) as (st & Hr & Hgs & _ & _).
  unfold run in Hr.
  destruct (rerun_main shapes (concat gs) _ _ _ _ Hr (items_ok_enumerate shapes))
    as (newcs & newgs & Hnew & _ & _ & R).
  simpl in Hnew. rewrite Hgs in Hnew. subst newgs.
  destruct (R 0 0 init) as (stτ & Hτ & Hgτ); [lia|lia|done|done|].
  apply group_touching_shapes_Return. by exists stτ.
Qed.

(** The seeds of the clusters come in increasing order of position. *)
Lemma seeds_increasing gs m1 m2 c1 c2 :
  result = Return gs → m1 < m2 → cs !! m1 = Some c1 → cs !! m2 = Some c2 →
  ∃ s1 s2, head c1 = Some s1 ∧ head c2 = Some s2 ∧ s1 < s2.
Proof.
  intros Hres Hlt H1 H2.
  destruct (cluster_order _ _ _ Hres H1) as (s1 & ds1 & -> & Hn1 & Hmin1 & _).
  destruct (cluster_order _ _ _ Hres H2) as (s2 & ds2 & -> & Hn2 & Hmin2 & _).
  exists s1, s2. split_and!; [done..|].
  destruct (Nat.lt_trichotomy s1 s2) as [?|[->|Hgt]]; [done| |].
  - destruct Hn2. apply elem_of_concat_take. exists m1, (s2 :: ds1).
    split_and!; [done..|by left].
  - destruct Hn2. apply Hmin1, elem_of_concat_take in Hgt as (m' & l & ? & ? & ?).
    apply elem_of_concat_take. exists m', l. split_and!; [lia|done..].
Qed.
End Claims.

(** ** The claims of the specification *)



(** C3, as amended. Whenever [group_touching_shapes] returns and
    distance(shapes[i], shapes[j]) == 0.0, position [j] is in the cluster
    of [i] or in a cluster returned before it; when the distance is [0.0]
    in both orders of the arguments, as for every symmetric oracle, [i]
    and [j] are in the same cluster. When the pairwise distances of
    [A, B, C] are strictly positive the result is [[A], [B], [C]],
    provided the stack has room for one call of [dfs] that can call
    [are_shapes_touching]. *)
Theorem C3_completeness_two_way :
  (∀ limit (shapes : list Shape) gs,
     group_touching_shapes distance limit shapes = Return gs →
     shapes_at shapes (cluster_positions distance limit shapes) gs ∧
     (∀ m c i j,
        cluster_positions distance limit shapes !! m = Some c → i ∈ c →
        touches distance shapes i j →
        ∃ m' c', m' ≤ m ∧
          cluster_positions distance limit shapes !! m' = Some c' ∧ j ∈ c') ∧
     (∀ i j, touches distance shapes i j → touches distance shapes j i →
        ∃ c, c ∈ cluster_positions distance limit shapes ∧ i ∈ c ∧ j ∈ c)) ∧
  (∀ limit A B C dAB dAC dBC,
     1 ≤ limit →
     distance A B = Some dAB → float_pos dAB = true →
     distance A C = Some dAC → float_pos dAC = true →
     distance B C = Some dBC → float_pos dBC = true →
     group_touching_shapes distance limit [A; B; C] = Return [[A]; [B]; [C]]).
Proof.
  split; [|apply scenario_apart].
  intros limit shapes gs Hres. split_and!.
  - by apply cluster_positions_result.
  - intros m c i j. by apply (touching_not_later limit shapes gs).
  - intros i j. by apply (touching_same_cluster limit shapes gs).
Qed.

(** C4, as amended. If the oracle fails on a queried pair,
    [group_touching_shapes] raises Python's built-in [RuntimeError] with
    the message "Distance computation failed."; nothing catches it, and
    no partition, partial or not, is returned. So it is when the oracle
    fails on the first comparison, provided the stack has room for the
    call that makes it. Conversely a raised exception is this
    [RuntimeError], and then the last oracle call is one that failed; or
    it is the [RecursionError] of the interpreter, and then no oracle
    call failed and the input has more than [limit + 1] shapes. *)
Theorem C4_failure_raises_RuntimeError :
  (∀ limit (shapes : list Shape) q,
     q ∈ oracle_log distance limit shapes →
     fails_at distance shapes (q_src q) (q_dst q) →
     group_touching_shapes distance limit shapes
     = Raise (RuntimeError "Distance computation failed.")) ∧
  (∀ limit A B rest, 1 ≤ limit → distance A B = None →
     group_touching_shapes distance limit (A :: B :: rest)
     = Raise (RuntimeError "Distance computation failed.")) ∧
  (∀ limit (shapes : list Shape) e,
     group_touching_shapes distance limit shapes = Raise e →
     (e = RuntimeError "Distance computation failed." ∧
      ∃ q, last (oracle_log distance limit shapes) = Some q ∧
        fails_at distance shapes (q_src q) (q_dst q)) ∨
     (e = RecursionError ∧ S limit < length shapes ∧
      ∀ q, q ∈ oracle_log distance limit shapes →
        ¬ fails_at distance shapes (q_src q) (q_dst q))).
Proof.
  split_and!.
  - apply failure_raises.
  - apply scenario_first_fails.
  - apply raises_failure.
Qed.

(** C5. When the oracle gives the distance [d] of a pair,
    [are_shapes_touching] returns true if and only if [d] is zero, with
    no tolerance: every strictly positive [d] gives false. The answer
    depends on [d] alone. *)
Theorem C5_touching_iff_zero (a b : Shape) (d : spec_float) :
  distance a b = Some d →
  (are_shapes_touching distance a b = Return true ↔
     ∃ sign, d = S754_zero sign) ∧
  (float_pos d = true → are_shapes_touching distance a b = Return false) ∧
  (∀ a' b', distance a' b' = Some d →
     are_shapes_touching distance a' b' = are_shapes_touching distance a b).
Proof.
  intros Hd. unfold are_shapes_touching. rewrite Hd. split_and!.
  - split.
    + intros [= He]. destruct d as [sign|[]| |[] ? ?]; try done. by exists sign.
    + by intros [sign ->].
  - intros Hp. by rewrite (float_pos_ne _ Hp).
  - by intros a' b' ->.
Qed.

(** C6. The result is a function of the input and of the answers of the
    oracle on the shapes of the input. On a successful run the clusters
    come in the order of their seeds: the seed, first member of its
    cluster, is the least position outside the clusters returned before,
    so the seeds increase; and the other members of a cluster are the
    positions found touching by the oracle calls made from members of
    that cluster, in the order of the calls. *)
Theorem C6_deterministic_order :
  (∀ distance' limit (shapes : list Shape),
     (∀ a b, a ∈ shapes → b ∈ shapes → distance' a b = distance a b) →
     group_touching_shapes distance' limit shapes
     = group_touching_shapes distance limit shapes) ∧
  (∀ limit (shapes : list Shape) gs,
     group_touching_shapes distance limit shapes = Return gs →
     shapes_at shapes (cluster_positions distance limit shapes) gs ∧
     (∀ m c, cluster_positions distance limit shapes !! m = Some c →
        ∃ sd ds, c = sd :: ds ∧
          (sd ∉ concat (take m (cluster_positions distance limit shapes))) ∧
          (∀ j, j < sd →
             j ∈ concat (take m (cluster_positions distance limit shapes))) ∧
          ds = found distance shapes
                 (filter (λ q, q_src q ∈ c) (oracle_log distance limit shapes))) ∧
     (∀ m1 m2 c1 c2, m1 < m2 →
        cluster_positions distance limit shapes !! m1 = Some c1 →
        cluster_positions distance limit shapes !! m2 = Some c2 →
        ∃ s1 s2, head c1 = Some s1 ∧ head c2 = Some s2 ∧ s1 < s2)).
Proof.
  split; [apply group_touching_shapes_ext|].
  intros limit shapes gs Hres. split_and!.
  - by apply cluster_positions_result.
  - intros m c. by apply (cluster_order limit shapes gs).
  - intros m1 m2 c1 c2. by apply (seeds_increasing limit shapes gs).
Qed.

(** C7. When [group_touching_shapes] succeeds, applying it again to the
    concatenation of the clusters returned succeeds with the same
    multiset of cluster sizes; indeed with the same clusters. *)
Theorem C7_reclustering (limit : nat) (shapes : list Shape) gs :
  group_touching_shapes distance limit shapes = Return gs →
  ∃ gs',
    group_touching_shapes distance limit (concat gs) = Return gs' ∧
    length <$> gs' ≡ₚ length <$> gs ∧ gs' = gs.
Proof.
  intros Hres. exists gs. split_and!; [by apply (rerun_same limit shapes)|done..].
Qed.

(** C8. No oracle call of a run, complete or not, has the same position
    for both arguments. *)
Theorem C8_no_self_comparison (limit : nat) (shapes : list Shape) i j :
  (i, j) ∈ oracle_calls distance limit shapes → i ≠ j.
Proof. intros H. by apply (calls_off_diagonal limit shapes). Qed.

(** C9. On an input of length 0 or 1, [group_touching_shapes] returns
    [[]], respectively [[[shapes[0]]]], without any oracle call, whatever
    the oracle; so it does not raise. *)
Theorem C9_small_inputs (limit : nat) (shapes : list Shape) :
  length shapes ≤ 1 →
  group_touching_shapes distance limit shapes
    = Return (match shapes with [] => [] | x :: _ => [[x]] end) ∧
  oracle_calls distance limit shapes = [] ∧
  (∀ e, group_touching_shapes distance limit shapes ≠ Raise e).
Proof.
  intros Hlen. destruct (small_input limit shapes Hlen) as [Hres Hlog].
  split_and!; [done| |].
  - unfold oracle_calls. by rewrite Hlog.
  - intros e. by rewrite Hres.
Qed.

(** C10. In one run, complete or not, no ordered pair of positions is
    passed to the oracle twice; the second argument of a call is a
    position not visited at the moment of the call, the first is a
    visited one; so the oracle is called at most n(n-1) times. *)
Theorem C10_each_pair_once (limit : nat) (shapes : list Shape) :
  NoDup (oracle_calls distance limit shapes) ∧
  (∀ q, q ∈ oracle_log distance limit shapes →
     q_src q ∈ q_visited q ∧ (q_dst q ∉ q_visited q) ∧
     q_src q < length shapes ∧ q_dst q < length shapes) ∧
  length (oracle_calls distance limit shapes)
    ≤ length shapes * (length shapes - 1).
Proof.
  split_and!.
  - apply calls_nodup.
  - apply calls_visited.
  - apply pairs_bound; [apply calls_nodup|apply calls_off_diagonal].
Qed.

End Facts.

(** ** Further properties of the clustering *)

(** *** Inputs where nothing touches, and inputs that form a chain *)

Section Extremes.

Context {Shape : Type} (distance : Shape → Shape → option spec_float).

Local Abbreviation touching := (are_shapes_touching distance).

Lemma forward_pairs_length m d : 2 * length (forward_pairs m d) = d * (d - 1).
Proof.
  revert m. induction d as [|d IH]; intros m; [done|].
  simpl. rewrite length_app, length_fmap, length_seq.
  specialize (IH (S m)). nia.
Qed.

(** A loop of [dfs] over unvisited shapes that do not touch [shape]
    asks about each of them and changes nothing else. *)
Lemma dfs_loop_all_far rec src shape items : ∀ st : state Shape,
  (∀ j r, (j, r) ∈ items → (j ∉ visited st) ∧ touching shape r = Return false) →
  ∃ st', dfs_loop distance (Some rec) src shape items st = (st', Done) ∧
    visited st' = visited st ∧ group st' = group st ∧ groups st' = groups st ∧
    call <$> queries st' = (call <$> queries st) ++ ((λ it, (src, it.1)) <$> items).
Proof.
  induction items as [|[j r] rest IH]; intros st Hall.
  - exists st. by rewrite app_nil_r.
  - destruct (Hall j r) as [Hj Hr]; [by left|].
    rewrite dfs_loop_far by done.
    destruct (IH (log_query src j st)) as (st' & -> & Hv & Hg & Hgs & Hq).
    { intros j' r' H. apply (Hall j' r'). by right. }
    exists st'. split_and!; [done..|].
    rewrite Hq. simpl. by rewrite fmap_app, <-app_assoc.
Qed.

Section Shapes.

Variable shapes : list Shape.

(** With the positions up to [k] visited and nothing touching, [dfs] for
    the shape at [k] finds nothing, after asking about every later
    shape. *)
Lemma dfs_apart room k x (st : state Shape) :
  apart distance shapes → shapes !! k = Some x → at_prefix (S k) st →
  ∃ st', dfs distance shapes (S room) k x st = (st', Done) ∧
    visited st' = visited st ∧ group st' = group st ∧ groups st' = groups st ∧
    call <$> queries st'
    = (call <$> queries st) ++ ((λ j, (k, j)) <$> seq (S k) (length shapes - S k)).
Proof.
  intros Hap Hx Hpre. pose proof (lookup_lt_Some _ _ _ Hx) as Hk.
  rewrite dfs_S.
  change (enumerate 0 shapes) with (enumerate 0 (drop 0 shapes)).
  rewrite (dfs_loop_prefix distance shapes _ _ _ 0 (S k)) by (done || lia).
  destruct (dfs_loop_all_far (dfs distance shapes room) k x
              (enumerate (S k) (drop (S k) shapes)) st)
    as (st' & -> & Hv & Hg & Hgs & Hq).
  { intros j r [Hj Hr]%elem_of_enumerate. rewrite lookup_drop in Hr. split.
    - rewrite (at_prefix_elem _ _ _ Hpre). lia.
    - apply (Hap k j); [lia|done|]. by replace j with (S k + (j - S k)) by lia. }
  exists st'. split_and!; [done..|]. rewrite Hq. f_equal.
  rewrite <-length_drop, <-(fst_enumerate (drop (S k) shapes) (S k)).
  by rewrite <-list_fmap_compose.
Qed.

Lemma main_loop_apart room l : ∀ k (st : state Shape),
  apart distance shapes → k + length l = length shapes → drop k shapes = l →
  at_prefix k st →
  ∃ st', main_loop distance shapes (S room) (enumerate k l) st = (st', Done) ∧
    groups st' = groups st ++ ((λ x, [x]) <$> l) ∧
    call <$> queries st' = (call <$> queries st) ++ forward_pairs k (length l).
Proof.
  induction l as [|x l IH]; intros k st Hap Hlen Hdrop Hpre.
  - exists st. by rewrite !app_nil_r.
  - destruct (drop_cons_inv _ _ _ _ Hdrop) as (Hx & Hdrop' & Hlt).
    cbn [enumerate]. rewrite main_loop_seed
      by (rewrite (at_prefix_elem _ _ _ Hpre); lia).
    destruct (dfs_apart room k x (seed k x st)) as (st1 & -> & Hv & Hg & Hgs & Hq);
      [done|done|by apply at_prefix_S|].
    destruct (IH (S k) (close_group st1)) as (st2 & -> & Hgs2 & Hq2);
      [done|simpl in Hlen; lia|done| |].
    { unfold at_prefix. simpl. rewrite Hv. simpl. by apply at_prefix_S. }
    exists st2. split_and!; [done| |].
    + rewrite Hgs2. simpl. rewrite Hgs, Hg. simpl. by rewrite <-app_assoc.
    + rewrite Hq2. simpl. rewrite Hq. simpl. rewrite <-app_assoc.
      replace (length shapes - S k) with (length l); [done|]. simpl in Hlen. lia.
Qed.

(** With the positions up to [k] visited and the input a chain, [dfs]
    for the shape at [k] collects all the shapes after it, in order,
    when the stack has room for them. *)
Lemma dfs_chained room : ∀ k x (st : state Shape),
  chained distance shapes → shapes !! k = Some x → at_prefix (S k) st →
  length shapes ≤ room + S k →
  ∃ st', dfs distance shapes room k x st = (st', Done) ∧
    at_prefix (length shapes) st' ∧
    group st' = group st ++ drop (S k) shapes ∧ groups st' = groups st.
Proof.
  induction room as [|room IH]; intros k x st Hch Hx Hpre Hroom.
  - pose proof (lookup_lt_Some _ _ _ Hx) as Hk.
    assert (S k = length shapes) as Hn by lia.
    rewrite dfs_O, dfs_loop_None, decide_True.
    + exists st. split_and!; [done| | |done].
      * by rewrite <-Hn.
      * by rewrite Hn, drop_all, app_nil_r.
    + apply Forall_forall. intros [j r] [_ Hj]%elem_of_enumerate. simpl.
      apply (at_prefix_elem _ _ _ Hpre). apply lookup_lt_Some in Hj. lia.
  - pose proof (lookup_lt_Some _ _ _ Hx) as Hk.
    rewrite dfs_S.
    change (enumerate 0 shapes) with (enumerate 0 (drop 0 shapes)).
    rewrite (dfs_loop_prefix distance shapes _ _ _ 0 (S k)) by (done || lia).
    destruct (drop (S k) shapes) as [|y rest] eqn:Hdrop.
    + apply drop_nil_inv in Hdrop.
      exists st. split_and!; [done| |by rewrite app_nil_r|done].
      by replace (length shapes) with (S k) by lia.
    + destruct (drop_cons_inv _ _ _ _ Hdrop) as (Hy & Hdrop' & Hlt).
      cbn [enumerate].
      rewrite dfs_loop_near;
        [|rewrite (at_prefix_elem _ _ _ Hpre); lia|by apply (Hch k)].
      destruct (IH (S k) y (visit (S k) y (log_query k (S k) st)))
        as (st1 & -> & Hpre1 & Hg1 & Hgs1);
        [done|done|by apply at_prefix_S|lia|].
      destruct (dfs_loop_idle distance (dfs distance shapes room) k x
                  (enumerate (S (S k)) rest) st1) as (st2 & -> & Hv & Hg & Hgs).
      { intros j r [_ Hj]%elem_of_enumerate. left.
        apply (at_prefix_elem _ _ _ Hpre1). apply lookup_lt_Some in Hj.
        rewrite <-Hdrop', length_drop in Hj. lia. }
      exists st2. split_and!.
      * done.
      * unfold at_prefix in *. by rewrite Hv.
      * rewrite Hg, Hg1. simpl. by rewrite Hdrop', <-app_assoc.
      * by rewrite Hgs, Hgs1.
Qed.

Lemma chained_single limit :
  chained distance shapes → shapes ≠ [] → length shapes ≤ S limit →
  group_touching_shapes distance limit shapes = Return [shapes].
Proof.
  intros Hch Hne Hroom. apply group_touching_shapes_Return. unfold run.
  assert (∃ x l, shapes = x :: l) as (x & l & Hs)
    by (destruct shapes; [done|eauto]).
  assert (Hx : shapes !! 0 = Some x) by (by rewrite Hs).
  assert (Hlen : length shapes = S (length l)) by (by rewrite Hs).
  assert (He : enumerate 0 shapes = (0, x) :: enumerate 1 l) by (by rewrite Hs).
  rewrite He.
  rewrite main_loop_seed by (simpl; set_solver).
  destruct (dfs_chained limit 0 x (seed 0 x init))
    as (st1 & -> & Hpre & Hg & Hgs); [done|done| |lia|].
  { unfold at_prefix. simpl. by apply at_prefix_S. }
  rewrite main_loop_idle.
  - exists (close_group st1). split; [done|]. simpl. rewrite Hgs, Hg. simpl.
    by rewrite Hs.
  - intros j r [_ Hj]%elem_of_enumerate. simpl.
    apply (at_prefix_elem _ _ _ Hpre). apply lookup_lt_Some in Hj. lia.
Qed.

End Shapes.



End Extremes.

(** *** The clusters as a rearrangement of the input *)

Lemma omap_lookup_seq {A} (l : list A) :
  omap (λ i, l !! i) (seq 0 (length l)) = l.
Proof.
  induction l as [|x l IH]; [done|]. simpl. f_equal.
  rewrite <-fmap_S_seq. etrans; [|exact IH]. clear IH.
  induction (seq 0 (length l)) as [|i l0 IH]; [done|].
  cbn [fmap list_fmap omap list_omap lookup list_lookup] in *.
  by rewrite IH.
Qed.

Lemma Forall2_lookup_omap {A} (l : list A) ps k :
  Forall2 (λ i s, l !! i = Some s) ps k → omap (λ i, l !! i) ps = k.
Proof.
  induction 1 as [|i s ps k Hi _ IH]; [done|].
  cbn [omap list_omap]. by rewrite Hi, IH.
Qed.

Lemma Forall2_concat_lift {A B} (R : A → B → Prop) ls ks :
  Forall2 (Forall2 R) ls ks → Forall2 R (concat ls) (concat ks).
Proof.
  induction 1 as [|l k ls ks Hlk _ IH]; [constructor|].
  simpl. by apply Forall2_app.
Qed.

Section Components.

Context {Shape : Type} (distance : Shape → Shape → option spec_float).

Variable limit : nat.
Variable shapes : list Shape.

Lemma positions_permutation gs :
  group_touching_shapes distance limit shapes = Return gs →
  concat (cluster_positions distance limit shapes) ≡ₚ seq 0 (length shapes).
Proof.
  intros Hres. pose proof (cluster_positions_result _ _ _ _ Hres) as Hat.
  destruct (result_Return_run _ _ _ _ Hres) as (st & Hr & _ & Hcs & _).
  pose proof (run_done _ _ _ _ Hr) as I. rewrite <-Hcs in Hat |- *.
  apply NoDup_Permutation.
  - apply (mi_nodup _ _ _ _ I).
  - apply NoDup_seq.
  - intros j. rewrite elem_of_seq. split.
    + intros (c & [m Hm]%list_elem_of_lookup & [k Hk]%list_elem_of_lookup)%elem_of_concat.
      destruct (Forall2_lookup_l _ _ _ _ _ Hat Hm) as (g & _ & Hg).
      destruct (Forall2_lookup_l _ _ _ _ _ Hg Hk) as (s & _ & Hs).
      apply lookup_lt_Some in Hs. lia.
    + intros [_ Hj]. simpl in Hj. apply (mi_before _ _ _ _ I) in Hj.
      rewrite (mi_visited _ _ _ _ I) in Hj. by apply elem_of_list_to_set in Hj.
Qed.

(** X3. The shapes returned are the shapes given: the concatenation of
    the clusters is a rearrangement of the input, equal shapes counted
    as often as they occur. *)
Theorem result_permutation gs :
  group_touching_shapes distance limit shapes = Return gs → concat gs ≡ₚ shapes.
Proof.
  intros Hres. pose proof (cluster_positions_result _ _ _ _ Hres) as Hat.
  apply Forall2_concat_lift, Forall2_lookup_omap in Hat. rewrite <-Hat.
  rewrite <-(omap_lookup_seq shapes) at 2.
  apply omap_Permutation. by eapply positions_permutation.
Qed.

(** X4. For an oracle that is symmetric on the input, the clusters
    returned are the connected components of the touching relation: two
    positions are in the same cluster exactly when a chain of touching
    shapes joins them. *)
Theorem same_cluster_iff_chain gs i j :
  symmetric distance shapes →
  group_touching_shapes distance limit shapes = Return gs →
  (∃ c, c ∈ cluster_positions distance limit shapes ∧ i ∈ c ∧ j ∈ c) ↔
  i < length shapes ∧ rtc (touches distance shapes) i j.
Proof.
  intros Hsym Hres. pose proof (positions_permutation _ Hres) as Hperm.
  assert (Hnd : NoDup (concat (cluster_positions distance limit shapes))).
  { rewrite Hperm. apply NoDup_seq. }
  split.
  - intros (c & Hc & Hi & Hj). split.
    + assert (i ∈ seq 0 (length shapes)) as Hin.
      { rewrite <-Hperm. apply elem_of_concat. by exists c. }
      apply elem_of_seq in Hin. lia.
    + eapply rtc_subrel; [|by apply (clusters_connected distance limit shapes gs c)].
      intros a b (_ & _ & [H|H]); [done|by apply Hsym].
  - intros [Hi Hch]. induction Hch as [i|i k j Hik _ IH].
    + assert (i ∈ concat (cluster_positions distance limit shapes)) as Hin.
      { rewrite Hperm. apply elem_of_seq. lia. }
      apply elem_of_concat in Hin as (c & Hc & Hin). by exists c.
    + destruct IH as (c & Hc & Hk & Hj).
      { destruct Hik as (a & b & d & _ & Hb & _). by eapply lookup_lt_Some. }
      destruct (touching_same_cluster distance limit shapes gs i k Hres Hik (Hsym _ _ Hik))
        as (c' & Hc' & Hi' & Hk').
      apply list_elem_of_lookup in Hc as [m Hm], Hc' as [m' Hm'].
      assert (m = m') as <-
        by (by apply (NoDup_concat_lookup _ m m' c c' k Hnd)).
      exists c. split_and!; [by eapply list_elem_of_lookup_2| |done].
      congruence.
Qed.

End Components.


(** *** Each pair of shapes is compared in one order *)

Section Snapshots.

Context {Shape : Type} (distance : Shape → Shape → option spec_float).

Lemma linv_init : linv (@init Shape).
Proof. split; [by intros a b qa qb _ ?|by intros q ?%elem_of_nil]. Qed.

Lemma linv_log_query src i (st : state Shape) : linv st → linv (log_query src i st).
Proof.
  intros [Hg Hw]. split; simpl.
  - intros a b qa qb Hab Ha Hb.
    apply lookup_app_Some in Hb as [Hb|[Hlen Hb]].
    + apply lookup_app_Some in Ha as [Ha|[Hlen' _]].
      * by apply (Hg a b).
      * apply lookup_lt_Some in Hb. lia.
    + apply list_lookup_singleton_Some in Hb as [_ <-]. simpl.
      apply lookup_app_Some in Ha as [Ha|[_ Ha]].
      * apply Hw. by eapply list_elem_of_lookup_2.
      * by apply list_lookup_singleton_Some in Ha as [_ <-].
  - intros q [Hq|Hq%list_elem_of_singleton]%elem_of_app; [by apply Hw|by subst q].
Qed.

Lemma linv_visit i o (st : state Shape) : linv st → linv (visit i o st).
Proof.
  intros [Hg Hw]. split; simpl; [done|].
  intros q Hq. specialize (Hw q Hq). set_solver.
Qed.

Lemma linv_seed i o (st : state Shape) : linv st → linv (seed i o st).
Proof.
  intros [Hg Hw]. split; simpl; [done|].
  intros q Hq. specialize (Hw q Hq). set_solver.
Qed.

Lemma linv_close_group (st : state Shape) : linv st → linv (close_group st).
Proof. by intros []. Qed.

Section Run.
Variable limit : nat.
Variable shapes : list Shape.

Lemma linv_dfs f :
  (∀ src shape st, linv st → linv (dfs distance shapes f src shape st).1) ∧
  (∀ src shape items st,
     linv st → linv (dfs_loop distance (Some (dfs distance shapes f)) src shape items st).1).
Proof.
  apply (dfs_run_ind distance shapes
    (λ _ _ _ st r, linv st → linv r.1) (λ _ _ _ _ st r, linv st → linv r.1));
    clear f; simpl; auto using linv_log_query, linv_visit.
Qed.

Lemma linv_main_loop f items : ∀ st,
  linv st → linv (main_loop distance shapes f items st).1.
Proof.
  induction items as [|[i x] rest IH]; intros st I; [done|]. simpl.
  destruct (decide (i ∈ visited st)); [by apply IH|].
  pose proof (proj1 (linv_dfs f) i x (seed i x st) (linv_seed _ _ _ I)) as I1.
  destruct (dfs distance shapes f i x (seed i x st)) as [st1 []]; [|done..].
  by apply IH, linv_close_group.
Qed.

Lemma linv_run : linv (run distance limit shapes).1.
Proof. apply linv_main_loop, linv_init. Qed.

Lemma calls_one_way i j :
  (i, j) ∈ oracle_calls distance limit shapes → (j, i) ∉ oracle_calls distance limit shapes.
Proof.
  intros (q & [= -> ->] & Hq)%list_elem_of_fmap (q' & [= Hs Hd] & Hq')%list_elem_of_fmap.
  destruct (calls_visited distance limit shapes q Hq) as (Hsrc & Hdst & _).
  destruct (calls_visited distance limit shapes q' Hq') as (Hsrc' & Hdst' & _).
  destruct linv_run as [Hg _]. unfold oracle_log in *.
  apply list_elem_of_lookup in Hq as [a Ha], Hq' as [b Hb].
  destruct (decide (a ≤ b)).
  - apply Hdst'. rewrite <-Hd. by apply (Hg a b q q').
  - apply Hdst. rewrite Hs. apply (Hg b a q' q); [lia|done..].
Qed.

Lemma calls_half :
  2 * length (oracle_calls distance limit shapes) ≤ length shapes * (length shapes - 1).
Proof.
  pose (swap := λ p : nat * nat, (p.2, p.1)).
  trans (length (oracle_calls distance limit shapes ++ (swap <$> oracle_calls distance limit shapes))).
  { rewrite length_app, length_fmap. lia. }
  apply pairs_bound.
  - apply NoDup_app. split_and!.
    + apply calls_nodup.
    + intros [i j] Hij ([j' i'] & Heq & Hji)%list_elem_of_fmap.
      injection Heq as -> ->. by apply (calls_one_way i' j').
    + apply NoDup_fmap_2; [|apply calls_nodup]. by intros [] [] [= -> ->].
  - intros i j [H|([j' i'] & Heq & H)%list_elem_of_fmap]%elem_of_app.
    + by apply (calls_off_diagonal distance limit shapes).
    + injection Heq as -> ->.
      destruct (calls_off_diagonal distance limit shapes _ _ H) as (?&?&?). eauto.
Qed.

End Run.

(** X5. In one run, complete or not, no two shapes are compared in both
    orders of the arguments: once the oracle is asked about positions
    [(i, j)], it is not asked about [(j, i)]. So the oracle is called at
    most n(n-1)/2 times. *)
Theorem calls_one_order limit (shapes : list Shape) :
  (∀ i j, (i, j) ∈ oracle_calls distance limit shapes →
     (j, i) ∉ oracle_calls distance limit shapes) ∧
  2 * length (oracle_calls distance limit shapes)
    ≤ length shapes * (length shapes - 1).
Proof. split; [apply calls_one_way|apply calls_half]. Qed.

End Snapshots.


(** *** More room on the stack *)

Section Room.

Context {Shape : Type} (distance : Shape → Shape → option spec_float).

Local Abbreviation touching := (are_shapes_touching distance).

(** A loop of [dfs] over visited positions does nothing, whatever the
    room. *)
Lemma dfs_loop_visited rec src shape items (st : state Shape) :
  Forall (λ it, it.1 ∈ visited st) items →
  dfs_loop distance rec src shape items st = (st, Done).
Proof.
  induction 1 as [|[i o] rest Hi _ IH]; [done|].
  simpl in *. by rewrite decide_True.
Qed.

(** A loop that does not end on [RecursionError] runs the same with a
    recursive call that agrees with its own wherever that one does not
    end on [RecursionError]. *)
Lemma dfs_loop_more rec rec' src shape items : ∀ st : state Shape,
  (∀ i o st0, (rec i o st0).2 ≠ Raised RecursionError →
     rec' i o st0 = rec i o st0) →
  (dfs_loop distance (Some rec) src shape items st).2 ≠ Raised RecursionError →
  dfs_loop distance (Some rec') src shape items st
  = dfs_loop distance (Some rec) src shape items st.
Proof.
  induction items as [|[i o] rest IH]; intros st Hrec; [done|].
  cbn [dfs_loop]. destruct (decide (i ∈ visited st)); [by apply IH|].
  destruct (touching shape o) as [[]|e]; [|by apply IH|done].
  destruct (rec i o (visit i o (log_query src i st))) as [st1 s] eqn:Hd.
  intros Hs. rewrite Hrec; rewrite Hd.
  - destruct s; [by apply IH|done].
  - by destruct s.
Qed.

Section Shapes.

Variable shapes : list Shape.

Lemma dfs_more room : ∀ src shape (st : state Shape),
  (dfs distance shapes room src shape st).2 ≠ Raised RecursionError →
  dfs distance shapes (S room) src shape st = dfs distance shapes room src shape st.
Proof.
  induction room as [|room IH]; intros src shape st.
  - rewrite dfs_S, dfs_O, dfs_loop_None.
    destruct (decide (Forall (λ it, it.1 ∈ visited st) (enumerate 0 shapes)));
      [|done].
    intros _. by apply dfs_loop_visited.
  - rewrite (dfs_S _ _ (S room)), (dfs_S _ _ room). by apply dfs_loop_more.
Qed.

Lemma main_loop_more room items : ∀ st : state Shape,
  (main_loop distance shapes room items st).2 ≠ Raised RecursionError →
  main_loop distance shapes (S room) items st
  = main_loop distance shapes room items st.
Proof.
  induction items as [|[i x] rest IH]; intros st; [done|].
  cbn [main_loop]. destruct (decide (i ∈ visited st)); [by apply IH|].
  destruct (dfs distance shapes room i x (seed i x st)) as [st1 s] eqn:Hd.
  intros Hs. rewrite dfs_more; rewrite Hd.
  - destruct s; [by apply IH|done].
  - by destruct s.
Qed.

Lemma run_more limit limit' :
  limit ≤ limit' →
  (run distance limit shapes).2 ≠ Raised RecursionError →
  run distance limit' shapes = run distance limit shapes.
Proof.
  induction 1 as [|limit' _ IH]; [done|]. intros Hs.
  unfold run in *. rewrite main_loop_more; rewrite IH; done.
Qed.

End Shapes.

(** X6. An outcome other than [RecursionError] does not depend on the
    room on the stack: with more room, [group_touching_shapes] returns
    the same clusters, or raises the same exception, after the same
    oracle calls. *)
Theorem more_room limit limit' (shapes : list Shape) :
  limit ≤ limit' →
  group_touching_shapes distance limit shapes ≠ Raise RecursionError →
  group_touching_shapes distance limit' shapes
  = group_touching_shapes distance limit shapes ∧
  oracle_calls distance limit' shapes = oracle_calls distance limit shapes.
Proof.
  intros Hle Hs.
  assert (Hrun : run distance limit' shapes = run distance limit shapes).
  { apply run_more; [done|]. intros Hr. apply Hs.
    unfold group_touching_shapes. destruct (run distance limit shapes) as [st s].
    simpl in Hr. by rewrite Hr. }
  unfold group_touching_shapes, oracle_calls, oracle_log. by rewrite Hrun.
Qed.

End Room.

(** ** Concrete runs *)

Lemma chain_oracle_total shapes : oracle_total chain_oracle shapes.
Proof. intros a b _ _. unfold chain_oracle. by repeat case_match. Defined.

Lemma apart_oracle_total shapes : oracle_total apart_oracle shapes.
Proof. by intros a b _ _. Defined.

Lemma one_way_oracle_total shapes : oracle_total one_way_oracle shapes.
Proof. intros a b _ _. unfold one_way_oracle. by repeat case_match. Defined.

Lemma contact_oracle_total shapes : oracle_total contact_oracle shapes.
Proof. by intros a b _ _. Defined.

Lemma chain_oracle_never_fails limit shapes : never_fails chain_oracle limit shapes.
Proof. apply oracle_total_never_fails, chain_oracle_total. Defined.

Lemma detour_oracle_sym a b : detour_oracle a b = detour_oracle b a.
Proof. destruct a as [|[|[|a]]]; destruct b as [|[|[|b]]]; reflexivity. Defined.

Lemma detour_oracle_symmetric shapes : symmetric detour_oracle shapes.
Proof.
  intros i j (a & b & d & Ha & Hb & Hd & Hz). exists b, a, d.
  rewrite detour_oracle_sym. auto.
Defined.

Example chain_run :
  group_touching_shapes chain_oracle 10 [0; 1; 2] = Return [[0; 1; 2]] ∧
  cluster_positions chain_oracle 10 [0; 1; 2] = [[0; 1; 2]] ∧
  oracle_calls chain_oracle 10 [0; 1; 2] = [(0, 1); (1, 2)].
Proof. by vm_compute. Qed.

(** The chain of three shapes needs room for two nested calls of [dfs]
    that call the oracle. With less room the call for the pair (1, 2)
    raises [RecursionError], and with none the call for (0, 1) does. *)
Example chain_overflow_run :
  group_touching_shapes chain_oracle 2 [0; 1; 2] = Return [[0; 1; 2]] ∧
  group_touching_shapes chain_oracle 1 [0; 1; 2] = Raise RecursionError ∧
  oracle_calls chain_oracle 1 [0; 1; 2] = [(0, 1)] ∧
  group_touching_shapes chain_oracle 0 [0; 1; 2] = Raise RecursionError ∧
  oracle_calls chain_oracle 0 [0; 1; 2] = [].
Proof. by vm_compute. Qed.

Example apart_run :
  group_touching_shapes apart_oracle 10 [0; 1; 2] = Return [[0]; [1]; [2]] ∧
  oracle_calls apart_oracle 10 [0; 1; 2] = [(0, 1); (0, 2); (1, 2)] ∧
  group_touching_shapes apart_oracle 1 [0; 1; 2] = Return [[0]; [1]; [2]].
Proof. by vm_compute. Qed.

Example failing_run :
  group_touching_shapes failing_oracle 10 [0; 1; 2]
    = Raise (RuntimeError "Distance computation failed.") ∧
  oracle_calls failing_oracle 10 [0; 1; 2] = [(0, 1)].
Proof. by vm_compute. Qed.

Example one_way_run :
  group_touching_shapes one_way_oracle 10 [0; 1] = Return [[0]; [1]] ∧
  cluster_positions one_way_oracle 10 [0; 1] = [[0]; [1]] ∧
  oracle_calls one_way_oracle 10 [0; 1] = [(0, 1)].
Proof. by vm_compute. Qed.

Example detour_run :
  group_touching_shapes detour_oracle 10 [0; 1; 2; 3] = Return [[0; 2; 1]; [3]] ∧
  oracle_calls detour_oracle 10 [0; 1; 2; 3]
    = [(0, 1); (0, 2); (2, 1); (1, 3); (2, 3); (0, 3)] ∧
  group_touching_shapes detour_oracle 10 [0; 2; 1; 3] = Return [[0; 2; 1]; [3]] ∧
  oracle_calls detour_oracle 10 [0; 2; 1; 3]
    = [(0, 1); (1, 2); (2, 3); (1, 3); (0, 3)].
Proof. by vm_compute. Qed.

(** Equal shapes at two positions are two members. *)
Example twins_run :
  group_touching_shapes contact_oracle 10 [7; 7] = Return [[7; 7]] ∧
  cluster_positions contact_oracle 10 [7; 7] = [[0; 1]].
Proof. by vm_compute. Qed.

(** A cluster that is discovered along a chain of [limit + 1] shapes
    fits; one more shape does not. *)
Example deep_run :
  group_touching_shapes contact_oracle 3 [0; 1; 2; 3] = Return [[0; 1; 2; 3]] ∧
  group_touching_shapes contact_oracle 3 [0; 1; 2; 3; 4] = Raise RecursionError.
Proof. by vm_compute. Qed.





(** C3 as stated fails for an oracle that is not symmetric: the distance
    from the shape at position 1 to the shape at position 0 is [0.0],
    the oracle answers for every pair, and the two end in different
    clusters. The only call made is (0, 1), which answers 5.0. The
    shapes of scenario 4 are not clustered when the stack has no room
    for a call of the oracle. *)
Lemma C3_counterexample :
  (oracle_total one_way_oracle [0; 1] ∧
   touches one_way_oracle [0; 1] 1 0 ∧ 1 ≠ 0 ∧
   group_touching_shapes one_way_oracle 10 [0; 1] = Return [[0]; [1]] ∧
   cluster_positions one_way_oracle 10 [0; 1] = [[0]; [1]] ∧
   oracle_calls one_way_oracle 10 [0; 1] = [(0, 1)] ∧
   ¬ ∃ c, c ∈ cluster_positions one_way_oracle 10 [0; 1] ∧ 1 ∈ c ∧ 0 ∈ c) ∧
  (apart_oracle 0 1 = Some five ∧ float_pos five = true ∧
   group_touching_shapes apart_oracle 0 [0; 1; 2] = Raise RecursionError).
Proof.
  split; [|by vm_compute].
  split_and!; [apply one_way_oracle_total| |done|by vm_compute..|].
  - by exists 1, 0, float_zero.
  - replace (cluster_positions one_way_oracle 10 [0; 1]) with [[0]; [1]]
      by by vm_compute.
    intros (c & Hc & H1 & H0).
    apply elem_of_cons in Hc as [->|Hc].
    + by apply list_elem_of_singleton in H1.
    + apply list_elem_of_singleton in Hc as ->.
      by apply list_elem_of_singleton in H0.
Qed.

Lemma C3_completeness_two_way_witness :
  (group_touching_shapes detour_oracle 10 [0; 1; 2; 3] = Return [[0; 2; 1]; [3]] ∧
   touches detour_oracle [0; 1; 2; 3] 1 2 ∧ touches detour_oracle [0; 1; 2; 3] 2 1 ∧
   ∃ c, c ∈ cluster_positions detour_oracle 10 [0; 1; 2; 3] ∧ 1 ∈ c ∧ 2 ∈ c) ∧
  (group_touching_shapes one_way_oracle 10 [0; 1] = Return [[0]; [1]] ∧
   cluster_positions one_way_oracle 10 [0; 1] !! 1 = Some [1] ∧
   touches one_way_oracle [0; 1] 1 0 ∧
   ∃ m' c', m' ≤ 1 ∧
     cluster_positions one_way_oracle 10 [0; 1] !! m' = Some c' ∧ 0 ∈ c') ∧
  (1 ≤ 1 ∧ apart_oracle 0 1 = Some five ∧ float_pos five = true ∧
   group_touching_shapes apart_oracle 1 [0; 1; 2] = Return [[0]; [1]; [2]]).
Proof.
  split; [|split].
  - assert (Hres : group_touching_shapes detour_oracle 10 [0; 1; 2; 3]
                   = Return [[0; 2; 1]; [3]]) by reflexivity.
    assert (H12 : touches detour_oracle [0; 1; 2; 3] 1 2).
    { exists 1, 2, float_zero. split_and!; reflexivity. }
    assert (H21 : touches detour_oracle [0; 1; 2; 3] 2 1).
    { exists 2, 1, float_zero. split_and!; reflexivity. }
    split_and!; [exact Hres|exact H12|exact H21|].
    destruct (proj1 (C3_completeness_two_way detour_oracle) 10 [0; 1; 2; 3] _ Hres)
      as (_ & _ & Htwo).
    exact (Htwo 1 2 H12 H21).
  - assert (Hres : group_touching_shapes one_way_oracle 10 [0; 1]
                   = Return [[0]; [1]]) by reflexivity.
    assert (Hc : cluster_positions one_way_oracle 10 [0; 1] !! 1 = Some [1])
      by reflexivity.
    assert (H10 : touches one_way_oracle [0; 1] 1 0).
    { exists 1, 0, float_zero. split_and!; reflexivity. }
    split_and!; [exact Hres|exact Hc|exact H10|].
    destruct (proj1 (C3_completeness_two_way one_way_oracle) 10 [0; 1] _ Hres)
      as (_ & Hone & _).
    exact (Hone 1 [1] 1 0 Hc (list_elem_of_here 1 []) H10).
  - assert (Hl : 1 ≤ 1) by lia.
    split_and!; [exact Hl|reflexivity..|].
    apply (proj2 (C3_completeness_two_way apart_oracle) 1 0 1 2 five five five Hl);
      reflexivity.
Defined.

(** C4 as stated fails: the exception raised when the oracle fails is a
    [RuntimeError], not an error of a kind [DistanceComputationFailed]. *)
Lemma C4_counterexample :
  ∃ e, group_touching_shapes failing_oracle 10 [0; 1] = Raise e ∧
    (0, 1) ∈ oracle_calls failing_oracle 10 [0; 1] ∧
    failing_oracle 0 1 = None ∧
    exc_class e = "RuntimeError" ∧
    exc_class e ≠ "DistanceComputationFailed".
Proof.
  exists (RuntimeError "Distance computation failed.").
  split_and!; [by vm_compute| |done..].
  replace (oracle_calls failing_oracle 10 [0; 1]) with [(0, 1)] by by vm_compute.
  by left.
Qed.

Lemma C4_failure_raises_RuntimeError_witness :
  (Query 0 1 {[0]} ∈ oracle_log failing_oracle 10 [0; 1; 2] ∧
   fails_at failing_oracle [0; 1; 2] 0 1 ∧
   group_touching_shapes failing_oracle 10 [0; 1; 2]
     = Raise (RuntimeError "Distance computation failed.")) ∧
  (1 ≤ 1 ∧ failing_oracle 0 1 = None ∧
   group_touching_shapes failing_oracle 1 [0; 1; 2]
     = Raise (RuntimeError "Distance computation failed.")) ∧
  (group_touching_shapes contact_oracle 1 [0; 1; 2] = Raise RecursionError ∧
   2 < length [0; 1; 2] ∧
   ∀ q, q ∈ oracle_log contact_oracle 1 [0; 1; 2] →
     ¬ fails_at contact_oracle [0; 1; 2] (q_src q) (q_dst q)).
Proof.
  split; [|split].
  - assert (Hq : Query 0 1 {[0]} ∈ oracle_log failing_oracle 10 [0; 1; 2]).
    { replace (oracle_log failing_oracle 10 [0; 1; 2])
        with [Query 0 1 ({[0]} ∪ ∅)] by reflexivity.
      rewrite (right_id_L ∅ (∪)). apply list_elem_of_here. }
    assert (Hf : fails_at failing_oracle [0; 1; 2] 0 1).
    { exists 0, 1. split_and!; reflexivity. }
    split_and!; [exact Hq|exact Hf|].
    exact (proj1 (C4_failure_raises_RuntimeError failing_oracle) 10 [0; 1; 2] _ Hq Hf).
  - assert (Hl : 1 ≤ 1) by lia.
    split_and!; [exact Hl|reflexivity|].
    exact (proj1 (proj2 (C4_failure_raises_RuntimeError failing_oracle))
             1 0 1 [2] Hl eq_refl).
  - assert (Hres : group_touching_shapes contact_oracle 1 [0; 1; 2]
                   = Raise RecursionError) by reflexivity.
    split; [exact Hres|].
    destruct (proj2 (proj2 (C4_failure_raises_RuntimeError contact_oracle))
                1 [0; 1; 2] _ Hres) as [[He _]|(_ & Hlen & Hlog)].
    + discriminate He.
    + split; [exact Hlen|exact Hlog].
Defined.

Lemma C5_touching_iff_zero_witness :
  chain_oracle 0 1 = Some float_zero ∧
  are_shapes_touching chain_oracle 0 1 = Return true ∧
  are_shapes_touching chain_oracle 0 2 = Return false.
Proof.
  split_and!; [reflexivity| |].
  - apply (proj1 (C5_touching_iff_zero chain_oracle 0 1 float_zero eq_refl)).
    by exists false.
  - apply (proj1 (proj2 (C5_touching_iff_zero chain_oracle 0 2 five eq_refl))).
    reflexivity.
Defined.

Lemma C6_deterministic_order_witness :
  group_touching_shapes chain_oracle 10 [0; 1; 2] = Return [[0; 1; 2]] ∧
  (∀ m c, cluster_positions chain_oracle 10 [0; 1; 2] !! m = Some c →
     ∃ sd ds, c = sd :: ds ∧
       (sd ∉ concat (take m (cluster_positions chain_oracle 10 [0; 1; 2]))) ∧
       (∀ j, j < sd →
          j ∈ concat (take m (cluster_positions chain_oracle 10 [0; 1; 2]))) ∧
       ds = found chain_oracle [0; 1; 2]
              (filter (λ q, q_src q ∈ c) (oracle_log chain_oracle 10 [0; 1; 2]))) ∧
  group_touching_shapes (λ a b, chain_oracle a b) 10 [0; 1; 2]
    = group_touching_shapes chain_oracle 10 [0; 1; 2].
Proof.
  assert (Hres : group_touching_shapes chain_oracle 10 [0; 1; 2] = Return [[0; 1; 2]])
    by reflexivity.
  split_and!; [exact Hres| |].
  - exact (proj1 (proj2 (proj2 (C6_deterministic_order chain_oracle) 10 [0; 1; 2] _ Hres))).
  - apply (proj1 (C6_deterministic_order chain_oracle)). reflexivity.
Defined.

Lemma C7_reclustering_witness :
  group_touching_shapes detour_oracle 10 [0; 1; 2; 3] = Return [[0; 2; 1]; [3]] ∧
  ∃ gs',
    group_touching_shapes detour_oracle 10 (concat [[0; 2; 1]; [3]]) = Return gs' ∧
    length <$> gs' ≡ₚ length <$> [[0; 2; 1]; [3]] ∧ gs' = [[0; 2; 1]; [3]].
Proof.
  assert (Hres : group_touching_shapes detour_oracle 10 [0; 1; 2; 3]
                 = Return [[0; 2; 1]; [3]]) by reflexivity.
  split; [exact Hres|].
  exact (C7_reclustering detour_oracle 10 [0; 1; 2; 3] _ Hres).
Defined.

Lemma C8_no_self_comparison_witness :
  (0, 1) ∈ oracle_calls chain_oracle 10 [0; 1; 2] ∧ 0 ≠ 1.
Proof.
  assert (Hc : (0, 1) ∈ oracle_calls chain_oracle 10 [0; 1; 2]).
  { replace (oracle_calls chain_oracle 10 [0; 1; 2]) with [(0, 1); (1, 2)]
      by reflexivity.
    apply list_elem_of_here. }
  split; [exact Hc|]. exact (C8_no_self_comparison chain_oracle 10 [0; 1; 2] 0 1 Hc).
Defined.

Lemma C9_small_inputs_witness :
  length [7] ≤ 1 ∧
  group_touching_shapes failing_oracle 0 [7] = Return [[7]] ∧
  oracle_calls failing_oracle 0 [7] = [] ∧
  (∀ e, group_touching_shapes failing_oracle 0 [7] ≠ Raise e).
Proof.
  split; [simpl; lia|]. apply (C9_small_inputs failing_oracle 0 [7]). simpl. lia.
Defined.

Lemma C10_each_pair_once_witness :
  NoDup (oracle_calls apart_oracle 10 [0; 1; 2]) ∧
  length (oracle_calls apart_oracle 10 [0; 1; 2]) ≤ 3 * (3 - 1).
Proof.
  destruct (C10_each_pair_once apart_oracle 10 [0; 1; 2]) as (Hnd & _ & Hlen).
  split; [exact Hnd|exact Hlen].
Defined.

(** ** Runs for the further properties *)

Lemma apart_oracle_apart shapes : apart apart_oracle shapes.
Proof. by intros i j a b _ _ _. Defined.

Lemma chain_oracle_chained : chained chain_oracle [0; 1; 2].
Proof.
  intros [|[|[|i]]] a b Ha Hb; simpl in Ha, Hb; try discriminate Hb;
    injection Ha as <-; injection Hb as <-; reflexivity.
Defined.



Lemma result_permutation_witness :
  group_touching_shapes detour_oracle 10 [0; 1; 2; 3] = Return [[0; 2; 1]; [3]] ∧
  [0; 2; 1; 3] ≡ₚ [0; 1; 2; 3].
Proof.
  assert (Hres : group_touching_shapes detour_oracle 10 [0; 1; 2; 3]
                 = Return [[0; 2; 1]; [3]]) by reflexivity.
  split; [exact Hres|].
  exact (result_permutation detour_oracle 10 [0; 1; 2; 3] _ Hres).
Defined.

Lemma same_cluster_iff_chain_witness :
  symmetric detour_oracle [0; 1; 2; 3] ∧
  group_touching_shapes detour_oracle 10 [0; 1; 2; 3] = Return [[0; 2; 1]; [3]] ∧
  (∃ c, c ∈ cluster_positions detour_oracle 10 [0; 1; 2; 3] ∧ 0 ∈ c ∧ 1 ∈ c) ∧
  rtc (touches detour_oracle [0; 1; 2; 3]) 0 1 ∧
  ¬ rtc (touches detour_oracle [0; 1; 2; 3]) 0 3.
Proof.
  assert (Hres : group_touching_shapes detour_oracle 10 [0; 1; 2; 3]
                 = Return [[0; 2; 1]; [3]]) by reflexivity.
  assert (Hc : ∃ c, c ∈ cluster_positions detour_oracle 10 [0; 1; 2; 3] ∧
                 0 ∈ c ∧ 1 ∈ c).
  { exists [0; 2; 1]. split; [|split].
    - replace (cluster_positions detour_oracle 10 [0; 1; 2; 3])
        with [[0; 2; 1]; [3]] by reflexivity.
      apply list_elem_of_here.
    - apply list_elem_of_here.
    - do 2 apply list_elem_of_further. apply list_elem_of_here. }
  split; [apply detour_oracle_symmetric|]. split; [exact Hres|].
  split; [exact Hc|]. split.
  - exact (proj2 (proj1 (same_cluster_iff_chain detour_oracle 10 [0; 1; 2; 3] _ 0 1
             (detour_oracle_symmetric _) Hres) Hc)).
  - intros Hch.
    assert (Hlt : 0 < length [0; 1; 2; 3]) by (simpl; lia).
    destruct (proj2 (same_cluster_iff_chain detour_oracle 10 [0; 1; 2; 3] _ 0 3
                (detour_oracle_symmetric _) Hres) (conj Hlt Hch))
      as (c & Hin & H0 & H3).
    replace (cluster_positions detour_oracle 10 [0; 1; 2; 3])
      with [[0; 2; 1]; [3]] in Hin by reflexivity.
    apply elem_of_cons in Hin as [->|Hin].
    + repeat (apply elem_of_cons in H3 as [H3|H3]; [discriminate H3|]).
      by apply elem_of_nil in H3.
    + apply list_elem_of_singleton in Hin as ->.
      apply list_elem_of_singleton in H0. discriminate H0.
Defined.

Lemma calls_one_order_witness :
  (0, 1) ∈ oracle_calls chain_oracle 10 [0; 1; 2] ∧
  ((1, 0) ∉ oracle_calls chain_oracle 10 [0; 1; 2]) ∧
  2 * length (oracle_calls chain_oracle 10 [0; 1; 2]) ≤ 3 * (3 - 1).
Proof.
  assert (Hc : (0, 1) ∈ oracle_calls chain_oracle 10 [0; 1; 2]).
  { replace (oracle_calls chain_oracle 10 [0; 1; 2]) with [(0, 1); (1, 2)]
      by reflexivity.
    apply list_elem_of_here. }
  destruct (calls_one_order chain_oracle 10 [0; 1; 2]) as [Hone Hhalf].
  split; [exact Hc|]. split; [exact (Hone 0 1 Hc)|exact Hhalf].
Defined.

Lemma more_room_witness :
  2 ≤ 5 ∧
  group_touching_shapes chain_oracle 2 [0; 1; 2] ≠ Raise RecursionError ∧
  group_touching_shapes chain_oracle 5 [0; 1; 2]
  = group_touching_shapes chain_oracle 2 [0; 1; 2] ∧
  oracle_calls chain_oracle 5 [0; 1; 2] = oracle_calls chain_oracle 2 [0; 1; 2].
Proof.
  assert (Hl : 2 ≤ 5) by lia.
  assert (Hs : group_touching_shapes chain_oracle 2 [0; 1; 2] ≠ Raise RecursionError).
  { replace (group_touching_shapes chain_oracle 2 [0; 1; 2])
      with (Return [[0; 1; 2]]) by reflexivity.
    discriminate. }
  split; [exact Hl|]. split; [exact Hs|].
  exact (more_room chain_oracle 2 5 [0; 1; 2] Hl Hs).
Defined.
